(** * Issue-group dashboard: persistence model and correction handlers

    A shallow embedding of the parts of the Slack issue tracker that decide
    how messages are linked to issue groups:

    - the relational schema of [backend/schema.sql] (tables [messages],
      [issue_groups], [message_groups], their keys, checks, cascades and
      the [updated_at] trigger) together with the migration that adds
      [priority] and [workflow_status];
    - the requests the React front end sends through the Supabase client
      ([IssueModal.tsx], [hooks/useIssueGroups.ts]);
    - the pure helpers of [utils.ts];
    - the assignment algorithm of the grouping engine, whose Python source
      is not part of the front-end tree and is modelled from its
      specification.

    Conventions.  A UUID is a [string].  A [TIMESTAMPTZ] is a [Z] (epoch
    milliseconds).  A [FLOAT] is a binary64 [float].  A JavaScript string is
    a [string] read one code unit per character.  Every Supabase call is one
    statement committed on its own; the state between two calls is what a
    concurrent reader sees. *)

From Stdlib Require Import Floats Ascii String.
From stdpp Require Import gmap strings list fin_maps sorting.

Set Warnings "-inexact-float".
Set Default Proof Using "Type".

Local Open Scope Z_scope.

Abbreviation uuid := string.
Abbreviation timestamptz := Z.

(** ** Schema *)

(** [messages]: the columns the front end reads, plus [thread_ts] and
    [is_relevant].  The front end never writes this table. *)
Record messages_row := {
  m_text : string;
  m_user_name : string;
  m_channel_name : string;
  m_channel_id : string;
  m_thread_ts : option string;
  m_timestamp : timestamptz;
  m_is_relevant : bool;
  m_category : string;
  m_confidence : float;
  m_summary : string
}.

(** [issue_groups] after the migration, as the front end reads it:
    [assignee] and [due_date] are the two fields the [IssueGroup] interface
    of [types.ts] declares beyond the columns of [schema.sql] and of the
    migration.  No statement of the front end names them: an inserted row
    has them empty and every update keeps them. *)
Record issue_groups_row := {
  g_title : string;
  g_summary : string;
  g_category : string;
  g_priority : string;
  g_status : string;
  g_workflow_status : string;
  g_assignee : option string;
  g_due_date : option string;
  g_created_at : timestamptz;
  g_updated_at : timestamptz
}.

(** [message_groups]: the key [(message_id, group_id)] is the key of the
    map, which is what [PRIMARY KEY (message_id, group_id)] says. *)
Record message_groups_row := {
  mg_similarity_score : option float;
  mg_created_at : timestamptz
}.

Record DB := {
  messages : gmap uuid messages_row;
  issue_groups : gmap uuid issue_groups_row;
  message_groups : gmap (uuid * uuid) message_groups_row
}.

(** [CHECK] constraints of [issue_groups]. *)
Definition check_category (c : string) : bool :=
  bool_decide (c ∈ ["support"; "bug"; "feature"; "question"]).
Definition check_priority (p : string) : bool :=
  bool_decide (p ∈ ["critical"; "high"; "medium"; "low"]).
Definition check_status (s : string) : bool :=
  bool_decide (s ∈ ["open"; "closed"]).
Definition check_workflow_status (w : string) : bool :=
  bool_decide (w ∈ ["backlog"; "todo"; "in_progress"; "blocked"; "resolved"; "closed"]).

Definition issue_groups_checks (r : issue_groups_row) : bool :=
  check_category (g_category r) && check_priority (g_priority r)
  && check_status (g_status r) && check_workflow_status (g_workflow_status r).

(** The [BEFORE UPDATE] trigger: [NEW.updated_at = NOW()]. *)
Definition update_updated_at_column (now : timestamptz) (r : issue_groups_row)
  : issue_groups_row :=
  {| g_title := g_title r; g_summary := g_summary r; g_category := g_category r;
     g_priority := g_priority r; g_status := g_status r;
     g_workflow_status := g_workflow_status r; g_assignee := g_assignee r;
     g_due_date := g_due_date r; g_created_at := g_created_at r;
     g_updated_at := now |}.

(** ** Requests *)

(** One key of the object handed to [.update({...})]: the four columns
    the handlers update. *)
Inductive Assignment :=
| SetTitle (v : string)
| SetStatus (v : string)
| SetPriority (v : string)
| SetWorkflowStatus (v : string).

Definition set_column (a : Assignment) (r : issue_groups_row) : issue_groups_row :=
  match a with
  | SetTitle v =>
      {| g_title := v; g_summary := g_summary r; g_category := g_category r;
         g_priority := g_priority r; g_status := g_status r;
         g_workflow_status := g_workflow_status r; g_assignee := g_assignee r;
         g_due_date := g_due_date r; g_created_at := g_created_at r;
         g_updated_at := g_updated_at r |}
  | SetStatus v =>
      {| g_title := g_title r; g_summary := g_summary r; g_category := g_category r;
         g_priority := g_priority r; g_status := v;
         g_workflow_status := g_workflow_status r; g_assignee := g_assignee r;
         g_due_date := g_due_date r; g_created_at := g_created_at r;
         g_updated_at := g_updated_at r |}
  | SetPriority v =>
      {| g_title := g_title r; g_summary := g_summary r; g_category := g_category r;
         g_priority := v; g_status := g_status r;
         g_workflow_status := g_workflow_status r; g_assignee := g_assignee r;
         g_due_date := g_due_date r; g_created_at := g_created_at r;
         g_updated_at := g_updated_at r |}
  | SetWorkflowStatus v =>
      {| g_title := g_title r; g_summary := g_summary r; g_category := g_category r;
         g_priority := g_priority r; g_status := g_status r;
         g_workflow_status := v; g_assignee := g_assignee r;
         g_due_date := g_due_date r; g_created_at := g_created_at r;
         g_updated_at := g_updated_at r |}
  end.

(** The statements the front end issues. *)
Inductive Request :=
| InsertIssueGroup (title summary category status : string)
| UpdateIssueGroup (id : uuid) (patch : list Assignment)
| DeleteIssueGroup (id : uuid)
| InsertMessageGroup (message_id group_id : uuid) (similarity_score : float)
| DeleteMessageGroup (message_id group_id : uuid).

Inductive PgError := unique_violation | foreign_key_violation | check_violation.

(** What a call resolves to: [{ data, error }].  Only the id of an inserted
    group is ever read back. *)
Inductive Response :=
| Success (inserted_id : option uuid)
| Failure (error : PgError).

(** What the server supplies while it runs a statement. *)
Record Env := {
  NOW : timestamptz;
  gen_random_uuid : uuid
}.

Definition exec (env : Env) (req : Request) (db : DB) : DB * Response :=
  match req with
  | InsertIssueGroup title summary category status =>
      let id := gen_random_uuid env in
      let row :=
        {| g_title := title; g_summary := summary; g_category := category;
           g_priority := "medium"; g_status := status;
           g_workflow_status := "backlog"; g_assignee := None;
           g_due_date := None; g_created_at := NOW env;
           g_updated_at := NOW env |} in
      if negb (issue_groups_checks row) then (db, Failure check_violation)
      else match issue_groups db !! id with
           | Some _ => (db, Failure unique_violation)
           | None =>
               ({| messages := messages db;
                   issue_groups := <[id := row]> (issue_groups db);
                   message_groups := message_groups db |},
                Success (Some id))
           end
  | UpdateIssueGroup id patch =>
      match issue_groups db !! id with
      | None => (db, Success None)
      | Some old =>
          let new := update_updated_at_column (NOW env) (foldr set_column old (reverse patch)) in
          if negb (issue_groups_checks new) then (db, Failure check_violation)
          else ({| messages := messages db;
                   issue_groups := <[id := new]> (issue_groups db);
                   message_groups := message_groups db |},
                Success None)
      end
  | DeleteIssueGroup id =>
      (* ON DELETE CASCADE on message_groups.group_id *)
      ({| messages := messages db;
          issue_groups := delete id (issue_groups db);
          message_groups := filter (λ kv, kv.1.2 ≠ id) (message_groups db) |},
       Success None)
  | InsertMessageGroup message_id group_id score =>
      match messages db !! message_id, issue_groups db !! group_id with
      | Some _, Some _ =>
          match message_groups db !! (message_id, group_id) with
          | Some _ => (db, Failure unique_violation)
          | None =>
              ({| messages := messages db;
                  issue_groups := issue_groups db;
                  message_groups :=
                    <[(message_id, group_id) :=
                        {| mg_similarity_score := Some score;
                           mg_created_at := NOW env |}]> (message_groups db) |},
               Success None)
          end
      | _, _ => (db, Failure foreign_key_violation)
      end
  | DeleteMessageGroup message_id group_id =>
      ({| messages := messages db;
          issue_groups := issue_groups db;
          message_groups := delete (message_id, group_id) (message_groups db) |},
       Success None)
  end.

(** Requests are awaited one after the other and their [error] is dropped
    unless the handler reads it.  The statements of one handler call are
    all stamped with the same [NOW()]. *)
Definition run (env : Env) (reqs : list Request) (db : DB) : DB :=
  foldl (λ d r, (exec env r d).1) db reqs.

(** The states a reader can see while [reqs] run: the one before the first
    request and the one after each commit. *)
Fixpoint observable (env : Env) (reqs : list Request) (db : DB) : list DB :=
  db :: match reqs with
        | [] => []
        | r :: rs => observable env rs (exec env r db).1
        end.

(** The messages linked to a group, and the groups a message is linked to. *)
Definition members (db : DB) (group_id : uuid) : gset uuid :=
  set_map (C := gset (uuid * uuid)) fst
    (filter (λ k : uuid * uuid, k.2 = group_id) (dom (message_groups db))).

Definition groups_of (db : DB) (message_id : uuid) : gset uuid :=
  set_map (C := gset (uuid * uuid)) snd
    (filter (λ k : uuid * uuid, k.1 = message_id) (dom (message_groups db))).

Definition linked (db : DB) (message_id group_id : uuid) : Prop :=
  is_Some (message_groups db !! (message_id, group_id)).

(** Referential integrity of [message_groups] (its two [REFERENCES]). *)
Definition references_ok (db : DB) : Prop :=
  ∀ mid gid, is_Some (message_groups db !! (mid, gid)) →
             is_Some (messages db !! mid) ∧ is_Some (issue_groups db !! gid).

(** Invariant I2 of the data model: a message is in at most one group. *)
Definition exclusive (db : DB) : Prop :=
  ∀ mid g1 g2, g1 ∈ groups_of db mid → g2 ∈ groups_of db mid → g1 = g2.

(** ** JavaScript values *)

(** [String.prototype.toUpperCase] and [toLowerCase] are left to the
    runtime; [ascii_runtime] below agrees with them on ASCII text. *)
Class JsRuntime := {
  toUpperCase : string → string;
  toLowerCase : string → string
}.

Definition ascii_upper (c : ascii) : ascii :=
  let n := nat_of_ascii c in
  if bool_decide (97 ≤ n ≤ 122)%nat then ascii_of_nat (n - 32) else c.
Definition ascii_lower (c : ascii) : ascii :=
  let n := nat_of_ascii c in
  if bool_decide (65 ≤ n ≤ 90)%nat then ascii_of_nat (n + 32) else c.
Fixpoint string_map (f : ascii → ascii) (s : string) : string :=
  match s with
  | EmptyString => EmptyString
  | String c s' => String (f c) (string_map f s')
  end.
Definition ascii_runtime : JsRuntime :=
  {| toUpperCase := string_map ascii_upper; toLowerCase := string_map ascii_lower |}.

(** White space as [trim] understands it, among code units below 256:
    TAB, LF, VT, FF, CR, SP and NBSP. *)
Definition is_whitespace (c : ascii) : bool :=
  bool_decide (nat_of_ascii c ∈ [9; 10; 11; 12; 13; 32; 160]%nat).

Fixpoint trimStart (s : string) : string :=
  match s with
  | EmptyString => EmptyString
  | String c s' => if is_whitespace c then trimStart s' else s
  end.
Definition trimEnd (s : string) : string := String.rev (trimStart (String.rev s)).
Definition trim (s : string) : string := trimEnd (trimStart s).

(** [s.includes(q)], [s.charAt(0)], [s.slice(a)] and [s.slice(0, n)]. *)
Definition includes (s q : string) : bool :=
  if index 0 q s is Some _ then true else false.
Definition charAt0 (s : string) : string := substring 0 1 s.
Definition slice_from (a : nat) (s : string) : string := substring a (String.length s) s.
Definition slice_to (n : nat) (s : string) : string := substring 0 n s.

(** [x || d] on an optional number: [undefined], [0], [-0] and [NaN] are
    falsy. *)
Definition or_default (x : option float) (d : float) : float :=
  match x with
  | Some v => if (is_zero v || is_nan v)%bool then d else v
  | None => d
  end.

(** ** types.ts *)

Inductive Priority := critical | high | medium | low.
Inductive WorkflowStatus := backlog | todo | in_progress | blocked | resolved | closed.
Inductive CategoryFilter := cat_all | cat_support | cat_bug | cat_feature | cat_question.
Inductive TimeFilter := time_all | time_24h | time_7d | time_30d.

#[global] Instance CategoryFilter_eq_dec : EqDecision CategoryFilter.
Proof. solve_decision. Defined.

Definition Priority_str (p : Priority) : string :=
  match p with
  | critical => "critical" | high => "high" | medium => "medium" | low => "low"
  end.
Definition WorkflowStatus_str (w : WorkflowStatus) : string :=
  match w with
  | backlog => "backlog" | todo => "todo" | in_progress => "in_progress"
  | blocked => "blocked" | resolved => "resolved" | closed => "closed"
  end.
Definition CategoryFilter_str (c : CategoryFilter) : string :=
  match c with
  | cat_all => "all" | cat_support => "support" | cat_bug => "bug"
  | cat_feature => "feature" | cat_question => "question"
  end.

(** A row of [issue_groups] as the client holds it. *)
Record IssueGroup := {
  ig_id : uuid;
  ig_row : issue_groups_row
}.

(** A row of [messages] as the client holds it.  [msg_similarity_score] is
    what reading the property [similarity_score] of the object gives:
    [None] when the object has no such property. *)
Record Message := {
  msg_id : uuid;
  msg_row : messages_row;
  msg_similarity_score : option float
}.

(** ** utils.ts *)

(** [now] is what [new Date()] reads when the function is called. *)
Definition getTimeFilterDate (now : timestamptz) (filter : TimeFilter)
  : option timestamptz :=
  match filter with
  | time_all => None
  | time_24h => Some (now - 24 * 60 * 60 * 1000)
  | time_7d => Some (now - 7 * 24 * 60 * 60 * 1000)
  | time_30d => Some (now - 30 * 24 * 60 * 60 * 1000)
  end.

(** One call of [filterIssueGroups]; [now] is what the clock reads during
    that call (the callback of the second [filter] reads it for each group;
    the readings of one call are taken as one instant).  Two calls have
    each their own reading: a statement about two calls takes two. *)
Definition filterIssueGroups `{JsRuntime} (now : timestamptz)
    (groups : list IssueGroup) (selectedCategory : CategoryFilter)
    (selectedTimeFilter : TimeFilter) (searchQuery : string) : list IssueGroup :=
  List.filter
    (λ group,
       if bool_decide (trim searchQuery = "") then true
       else
         let query := toLowerCase searchQuery in
         includes (toLowerCase (g_title (ig_row group))) query
         || includes (toLowerCase (g_summary (ig_row group))) query)
    (List.filter
       (λ group,
          match getTimeFilterDate now selectedTimeFilter with
          | None => true
          | Some timeFilterDate =>
              bool_decide (timeFilterDate ≤ g_created_at (ig_row group))
          end)
       (List.filter
          (λ group,
             bool_decide (selectedCategory = cat_all)
             || bool_decide (g_category (ig_row group)
                             = CategoryFilter_str selectedCategory))
          groups)).

(** ** hooks/useIssueGroups.ts *)

(** [select('messages( * )').eq('group_id', groupId)]: one object per link
    of the group, built from the columns of [messages]; links whose message
    is missing are dropped by [filter(Boolean)]. *)
Definition fetchGroupMessages (db : DB) (groupId : uuid) : list Message :=
  omap (λ kv : (uuid * uuid) * message_groups_row,
          if decide (kv.1.2 = groupId)
          then (λ r, {| msg_id := kv.1.1; msg_row := r;
                        msg_similarity_score := None |})
                 <$> messages db !! kv.1.1
          else None)
       (map_to_list (message_groups db)).

Definition toggleGroupStatus_newStatus (currentStatus : string) : string :=
  if decide (currentStatus = "open") then "resolved" else "open".

Definition toggleGroupStatus_request (groupId : uuid) (currentStatus : string)
  : Request :=
  UpdateIssueGroup groupId [SetStatus (toggleGroupStatus_newStatus currentStatus)].

(** The server state and the hook's local list of groups. *)
Definition toggleGroupStatus (env : Env) (groupId : uuid) (currentStatus : string)
    (db : DB) (issueGroups : list IssueGroup) : DB * list IssueGroup :=
  let newStatus := toggleGroupStatus_newStatus currentStatus in
  match exec env (toggleGroupStatus_request groupId currentStatus) db with
  | (db', Failure _) => (db', issueGroups)
  | (db', Success _) =>
      (db', (λ group, if decide (ig_id group = groupId)
                      then {| ig_id := ig_id group;
                              ig_row := set_column (SetStatus newStatus) (ig_row group) |}
                      else group) <$> issueGroups)
  end.

(** ** components/IssueModal.tsx *)

Record IssueModal := {
  selectedGroup : IssueGroup;
  groupMessages : list Message;
  availableGroups : list IssueGroup;
  editedTitle : string
}.

Definition handleSaveTitle_requests (modal : IssueModal) : list Request :=
  if decide (trim (editedTitle modal) = ""
             ∨ editedTitle modal = g_title (ig_row (selectedGroup modal)))
  then []
  else [UpdateIssueGroup (ig_id (selectedGroup modal))
                         [SetTitle (trim (editedTitle modal))]].

Definition handleSaveTitle (env : Env) (modal : IssueModal) (db : DB) : DB :=
  run env (handleSaveTitle_requests modal) db.

Definition handleUpdatePriority (env : Env) (modal : IssueModal)
    (newPriority : Priority) (db : DB) : DB :=
  run env [UpdateIssueGroup (ig_id (selectedGroup modal))
                            [SetPriority (Priority_str newPriority)]] db.

Definition handleUpdateWorkflowStatus (env : Env) (modal : IssueModal)
    (newStatus : WorkflowStatus) (db : DB) : DB :=
  run env [UpdateIssueGroup (ig_id (selectedGroup modal))
                            [SetWorkflowStatus (WorkflowStatus_str newStatus)]] db.

(** The group a split creates, from the message alone. *)
Definition split_title `{JsRuntime} (message : Message) : string :=
  (toUpperCase (charAt0 (m_category (msg_row message)))
   +:+ slice_from 1 (m_category (msg_row message)))
  +:+ ": " +:+ slice_to 50 (m_summary (msg_row message)).

Definition split_insert `{JsRuntime} (message : Message) : Request :=
  InsertIssueGroup (split_title message) (m_summary (msg_row message))
                   (m_category (msg_row message)) "open".

(** The "Split" button is rendered only when
    [groupMessages.length > 1]. *)
Definition splitButtonShown (modal : IssueModal) : bool :=
  bool_decide (1 < length (groupMessages modal))%nat.

Definition handleSplitMessage `{JsRuntime} (env : Env) (modal : IssueModal)
    (confirm : bool) (messageId : uuid) (db : DB) : DB :=
  if negb confirm then db
  else
    match List.find (λ m, bool_decide (msg_id m = messageId)) (groupMessages modal) with
    | None => db
    | Some message =>
        match exec env (split_insert message) db with
        | (db1, Failure _) => db1
        | (db1, Success None) =>
            (* no row came back: [newGroup.id] throws after the delete *)
            run env [DeleteMessageGroup messageId (ig_id (selectedGroup modal))] db1
        | (db1, Success (Some newGroup_id)) =>
            run env [DeleteMessageGroup messageId (ig_id (selectedGroup modal));
                     InsertMessageGroup messageId newGroup_id 1%float] db1
        end
    end.

Definition created_desc (a b : IssueGroup) : Prop :=
  g_created_at (ig_row b) ≤ g_created_at (ig_row a).

#[global] Instance created_desc_dec : RelDecision created_desc.
Proof. intros a b. unfold created_desc. apply _. Defined.

(** [.neq('id', ...).eq('status', 'open').order('created_at', desc).limit(20)] *)
Definition handleOpenMergeModal (modal : IssueModal) (db : DB) : list IssueGroup :=
  take 20
    (merge_sort created_desc
       (filter (λ g, ig_id g ≠ ig_id (selectedGroup modal)
                     ∧ g_status (ig_row g) = "open")
          ((λ kv, {| ig_id := kv.1; ig_row := kv.2 |})
             <$> map_to_list (issue_groups db)))).

Definition merge_move (sourceGroupId targetGroupId : uuid) (msg : Message)
  : list Request :=
  [DeleteMessageGroup (msg_id msg) sourceGroupId;
   InsertMessageGroup (msg_id msg) targetGroupId
                      (or_default (msg_similarity_score msg) 1%float)].

Definition merge_requests (modal : IssueModal) (targetGroupId : uuid)
  : list Request :=
  (groupMessages modal ≫= merge_move (ig_id (selectedGroup modal)) targetGroupId)
  ++ [DeleteIssueGroup (ig_id (selectedGroup modal))].

Definition handleMergeIntoGroup_requests (modal : IssueModal) (confirm : bool)
    (targetGroupId : uuid) : list Request :=
  match List.find (λ g, bool_decide (ig_id g = targetGroupId)) (availableGroups modal) with
  | None => []
  | Some targetGroup => if confirm then merge_requests modal targetGroupId else []
  end.

Definition handleMergeIntoGroup (env : Env) (modal : IssueModal) (confirm : bool)
    (targetGroupId : uuid) (db : DB) : DB :=
  run env (handleMergeIntoGroup_requests modal confirm targetGroupId) db.

(** The dialog as it is when a group's card is opened and "Merge" is
    clicked: the message list and the candidate list are read from [db]. *)
Definition open_modal (db : DB) (group : IssueGroup) : IssueModal :=
  let modal := {| selectedGroup := group;
                  groupMessages := fetchGroupMessages db (ig_id group);
                  availableGroups := [];
                  editedTitle := g_title (ig_row group) |} in
  {| selectedGroup := group;
     groupMessages := groupMessages modal;
     availableGroups := handleOpenMergeModal modal db;
     editedTitle := editedTitle modal |}.

(** ** Grouping engine *)

Module GroupingEngine.

(** Modelled from the spec: the inbound message record handed over by the
    classification and embedding steps.  The engine itself
    ([backend/app/grouping.py]) is not among the sources; what follows
    is the data model of section 3 and the algorithm of section 4.2. *)
Record InboundMessage := {
  id : uuid;
  threadId : option string;
  category : string;
  summary : string;
  embedding : list float
}.

(** Modelled from the spec: a cluster as the engine allocates it, missing
    from the sources with the engine. *)
Record Group := {
  title : string;
  groupSummary : string;
  groupCategory : string;
  status : string;
  priority : string;
  assignee : option string;
  dueDate : option string
}.

(** Modelled from the spec: one element of the sequence [nearest]
    produces, [(messageId, groupId, cosineSimilarity)]. *)
Record Neighbor := {
  messageId : uuid;
  groupId : uuid;
  cosineSimilarity : float
}.

(** Modelled from the spec: the Embedding Store, an external collaborator
    known by its contract [nearest(v, c, k, w)], results ordered by
    descending similarity. *)
Record EmbeddingStore := {
  nearest : list float → string → nat → timestamptz → list Neighbor
}.

(** Modelled from the spec: the engine's configuration, threshold [T],
    neighbour count [k] and recency window [w]. *)
Record Config := {
  T : float;
  k : nat;
  w : timestamptz
}.

(** Modelled from the spec: the default threshold, 0.60. *)
Definition default_T : float := 0.60%float.

(** Modelled from the spec: the Thread Index, the groups and the
    membership of each message with its recorded score. *)
Record State := {
  threadIndex : gmap string uuid;
  groups : gmap uuid Group;
  memberships : gmap uuid (uuid * float)
}.

(** Modelled from the spec: the rule that fired, and the assignment it
    makes (target group and recorded similarity). *)
Inductive Rule := thread_affinity | semantic_nearest_neighbor | new_group.

(** Modelled from the spec: the outcome of steps 1 to 3 for one message. *)
Record Decision := {
  rule : Rule;
  target : uuid;
  similarity : float
}.

(** Modelled from the spec: step 1 fires when the thread id is non-null
    and the Thread Index maps it to an existing group. *)
Definition thread_group (st : State) (m : InboundMessage) : option uuid :=
  match threadId m with
  | None => None
  | Some t =>
      match threadIndex st !! t with
      | None => None
      | Some g => if groups st !! g is Some _ then Some g else None
      end
  end.

(** Modelled from the spec: steps 1 to 3 of the assignment algorithm in
    strict priority order; [fresh] is the id a new group would get.  The
    spec names no score for the founding member of a new group; 1.0 is
    recorded, as for a split. *)
Definition decide_assignment (cfg : Config) (store : EmbeddingStore)
    (fresh : uuid) (st : State) (m : InboundMessage) : Decision :=
  match thread_group st m with
  | Some g => {| rule := thread_affinity; target := g; similarity := 1%float |}
  | None =>
      match head (nearest store (embedding m) (category m) (k cfg) (w cfg)) with
      | Some best =>
          if PrimFloat.leb (T cfg) (cosineSimilarity best)
          then {| rule := semantic_nearest_neighbor; target := groupId best;
                  similarity := cosineSimilarity best |}
          else {| rule := new_group; target := fresh; similarity := 1%float |}
      | None => {| rule := new_group; target := fresh; similarity := 1%float |}
      end
  end.

(** Modelled from the spec: the group step 3 allocates. *)
Definition allocate (m : InboundMessage) : Group :=
  {| title := summary m; groupSummary := summary m; groupCategory := category m;
     status := "backlog"; priority := "medium"; assignee := None;
     dueDate := None |}.

(** Modelled from the spec: the whole unit for one message, the decision,
    the membership write and (step 4) the registration of a new group
    under the message's thread id. *)
Definition assign (cfg : Config) (store : EmbeddingStore) (fresh : uuid)
    (st : State) (m : InboundMessage) : State * Decision :=
  let d := decide_assignment cfg store fresh st m in
  ({| threadIndex :=
        match rule d, threadId m with
        | new_group, Some t => <[t := fresh]> (threadIndex st)
        | _, _ => threadIndex st
        end;
      groups :=
        match rule d with
        | new_group => <[fresh := allocate m]> (groups st)
        | _ => groups st
        end;
      memberships := <[id m := (target d, similarity d)]> (memberships st) |},
   d).

End GroupingEngine.


(** * Statements *)

(** ** Well-formed stores *)

(** Checkers for the two conditions on a concrete store. *)
Definition references_okb (db : DB) : bool :=
  bool_decide (map_Forall (λ (k : uuid * uuid) (_ : message_groups_row),
                             is_Some (messages db !! k.1)
                             ∧ is_Some (issue_groups db !! k.2))
                          (message_groups db)).

Definition exclusiveb (db : DB) : bool :=
  bool_decide (map_Forall (λ (k1 : uuid * uuid) (_ : message_groups_row),
                 map_Forall (λ (k2 : uuid * uuid) (_ : message_groups_row),
                               k1.1 = k2.1 → k1.2 = k2.2)
                            (message_groups db))
                          (message_groups db)).

(** The behaviour the data model asks of the store: an insert that would
    put a message into a second group is refused, and exclusivity is kept. *)
Definition exclusivity_enforced : Prop :=
  ∀ env db mid gid score,
    exclusive db →
    (∀ g', g' ≠ gid → g' ∈ groups_of db mid →
           ∃ e, (exec env (InsertMessageGroup mid gid score) db).2 = Failure e)
    ∧ exclusive (exec env (InsertMessageGroup mid gid score) db).1.

(** ** Edits of one group *)

(** The edits of one group the front end offers, and the handler of each. *)
Inductive GroupEdit :=
| edit_title
| edit_priority (newPriority : Priority)
| edit_workflow_status (newStatus : WorkflowStatus)
| edit_status (currentStatus : string).

Definition apply_edit (env : Env) (modal : IssueModal) (e : GroupEdit) (db : DB) : DB :=
  match e with
  | edit_title => handleSaveTitle env modal db
  | edit_priority p => handleUpdatePriority env modal p db
  | edit_workflow_status ws => handleUpdateWorkflowStatus env modal ws db
  | edit_status s => (toggleGroupStatus env (ig_id (selectedGroup modal)) s db []).1
  end.







(** ** Merge and split *)


(** What each request of a sequence resolves to. *)
Fixpoint responses (env : Env) (reqs : list Request) (db : DB) : list Response :=
  match reqs with
  | [] => []
  | r :: rs => (exec env r db).2 :: responses env rs (exec env r db).1
  end.

(** In state [s] some link of the source group (as it was in [db0]) has
    moved to the target and another has not. *)
Definition partially_moved (db0 s : DB) (source target : uuid) : Prop :=
  ∃ x y, linked db0 x source ∧ linked db0 y source
         ∧ linked s x target ∧ ¬ linked s x source
         ∧ linked s y source ∧ ¬ linked s y target.

(** In state [s] the group is gone while a link still points to it. *)
Definition dangling (s : DB) (group_id : uuid) : Prop :=
  issue_groups s !! group_id = None ∧ ∃ x, linked s x group_id.

(** Atomicity of a merge, as the data model asks for it: no reader sees a
    half-moved group or a dangling link, and a merge one of whose requests
    fails leaves the store as it was. *)
Definition merge_atomic : Prop :=
  ∀ env db source target,
    references_ok db →
    let modal := open_modal db source in
    let reqs := handleMergeIntoGroup_requests modal true target in
    (∀ s, s ∈ observable env reqs db →
          ¬ partially_moved db s (ig_id source) target
          ∧ ¬ dangling s (ig_id source))
    ∧ ((∃ e, Failure e ∈ responses env reqs db) → run env reqs db = db).

(** The row a split inserts. *)
Definition split_row (JS : JsRuntime) (env : Env) (message : Message)
  : issue_groups_row :=
  {| g_title := split_title message;
     g_summary := m_summary (msg_row message);
     g_category := m_category (msg_row message);
     g_priority := "medium"; g_status := "open"; g_workflow_status := "backlog";
     g_assignee := None; g_due_date := None;
     g_created_at := NOW env; g_updated_at := NOW env |}.

(** A split that empties its source group deletes that group. *)
Definition split_deletes_emptied_source (JS : JsRuntime) : Prop :=
  ∀ env modal messageId db,
    references_ok db →
    splitButtonShown modal = true →
    messageId ∈ msg_id <$> groupMessages modal →
    linked db messageId (ig_id (selectedGroup modal)) →
    let db' := handleSplitMessage env modal true messageId db in
    members db' (ig_id (selectedGroup modal)) = ∅ →
    issue_groups db' !! ig_id (selectedGroup modal) = None.

(** ** Search text *)

Fixpoint whitespace_only (s : string) : bool :=
  match s with
  | EmptyString => true
  | String c s' => is_whitespace c && whitespace_only s'
  end.

(** * Sample stores *)

Definition sample_message : messages_row :=
  {| m_text := "error 500 on dashboard"; m_user_name := "ann";
     m_channel_name := "help"; m_channel_id := "C1"; m_thread_ts := None;
     m_timestamp := 1000; m_is_relevant := true; m_category := "bug";
     m_confidence := 0.9%float; m_summary := "dashboard error" |}.

Definition sample_group (title : string) (created : timestamptz) : issue_groups_row :=
  {| g_title := title; g_summary := "dashboard error"; g_category := "bug";
     g_priority := "medium"; g_status := "open"; g_workflow_status := "backlog";
     g_assignee := None; g_due_date := None; g_created_at := created;
     g_updated_at := created |}.

Definition sample_env : Env := {| NOW := 5000; gen_random_uuid := "g9" |}.

Definition link (score : float) : message_groups_row :=
  {| mg_similarity_score := Some score; mg_created_at := 1000 |}.

(** One message linked to [g1] with score 0.72; [g2] exists and is empty. *)
Definition group_1 : IssueGroup :=
  {| ig_id := "g1"; ig_row := sample_group "Bug: dashboard error" 1000 |}.

Definition db_one_link : DB :=
  {| messages := {[ "m1" := sample_message ]};
     issue_groups := {[ "g1" := ig_row group_1;
                        "g2" := sample_group "Bug: login loop" 2000 ]};
     message_groups := {[ ("m1", "g1") := link 0.72%float ]} |}.

Definition sample_groups : list IssueGroup :=
  [ group_1;
    {| ig_id := "g2"; ig_row := sample_group "Bug: login loop" 2000 |} ].

(** Group [gA] with three messages and group [gB] with two. *)
Definition group_A : IssueGroup :=
  {| ig_id := "gA"; ig_row := sample_group "Bug: dashboard error" 1000 |}.

Definition db_A3_B2 : DB :=
  {| messages := {[ "m1" := sample_message; "m2" := sample_message;
                    "m3" := sample_message; "m4" := sample_message;
                    "m5" := sample_message ]};
     issue_groups := {[ "gA" := ig_row group_A;
                        "gB" := sample_group "Bug: login loop" 2000 ]};
     message_groups :=
       {[ ("m1", "gA") := link 1%float; ("m2", "gA") := link 0.72%float;
          ("m3", "gA") := link 0.65%float; ("m4", "gB") := link 1%float;
          ("m5", "gB") := link 0.81%float ]} |}.

(** As [db_A3_B2], but [m1] is linked to both groups, which the primary
    key of [message_groups] allows: three links on [gA], three on [gB]. *)
Definition db_A3_B3_shared : DB :=
  {| messages := messages db_A3_B2;
     issue_groups := issue_groups db_A3_B2;
     message_groups := <[("m1", "gB") := link 0.7%float]> (message_groups db_A3_B2) |}.

(** The dialog on [gA] with the candidates listed but no message loaded
    (the "Merge" button does not depend on the message list). *)
Definition modal_A_unloaded : IssueModal :=
  {| selectedGroup := group_A;
     groupMessages := [];
     availableGroups := availableGroups (open_modal db_A3_B2 group_A);
     editedTitle := g_title (ig_row group_A) |}.

(** The dialog on [g1] holding two message objects that carry a score of
    their own: 0.72 on [m1] and 0 on [m2]. *)
Definition modal_scored : IssueModal :=
  {| selectedGroup := group_1;
     groupMessages :=
       [ {| msg_id := "m1"; msg_row := sample_message;
            msg_similarity_score := Some 0.72%float |};
         {| msg_id := "m2"; msg_row := sample_message;
            msg_similarity_score := Some 0%float |} ];
     availableGroups := [];
     editedTitle := g_title (ig_row group_1) |}.

(** Two sessions on group [gX] with members [m1] and [m2]: both open the
    dialog on the same store [db_X2]; the first splits [m2] out, which
    gives [db_X1]. *)
Definition group_X : IssueGroup :=
  {| ig_id := "gX"; ig_row := sample_group "Bug: dashboard error" 1000 |}.

Definition db_X2 : DB :=
  {| messages := {[ "m1" := sample_message; "m2" := sample_message ]};
     issue_groups := {[ "gX" := ig_row group_X ]};
     message_groups := {[ ("m1", "gX") := link 1%float;
                          ("m2", "gX") := link 0.72%float ]} |}.

Definition db_X1 : DB :=
  handleSplitMessage (H := ascii_runtime)
    {| NOW := 4000; gen_random_uuid := "g8" |}
    (open_modal db_X2 group_X) true "m2" db_X2.

(** An engine state with one bug group [g1] and nothing in the Thread
    Index, a store whose best match for any query is a member of [g1] at
    similarity [s], and inbound bug messages. *)
Definition engine_cfg : GroupingEngine.Config :=
  {| GroupingEngine.T := GroupingEngine.default_T;
     GroupingEngine.k := 5; GroupingEngine.w := 604800000 |}.

Definition engine_state : GroupingEngine.State :=
  {| GroupingEngine.threadIndex := ∅;
     GroupingEngine.groups :=
       {[ "g1" := {| GroupingEngine.title := "login fails";
                     GroupingEngine.groupSummary := "login fails";
                     GroupingEngine.groupCategory := "bug";
                     GroupingEngine.status := "backlog";
                     GroupingEngine.priority := "medium";
                     GroupingEngine.assignee := None;
                     GroupingEngine.dueDate := None |} ]};
     GroupingEngine.memberships := {[ "m0" := ("g1", 1%float) ]} |}.

Definition store_with_best (s : float) : GroupingEngine.EmbeddingStore :=
  {| GroupingEngine.nearest := λ _ _ _ _,
       [ {| GroupingEngine.messageId := "m0"; GroupingEngine.groupId := "g1";
            GroupingEngine.cosineSimilarity := s |} ] |}.

Definition inbound (id : uuid) (thread : option string) (summary : string)
  : GroupingEngine.InboundMessage :=
  {| GroupingEngine.id := id; GroupingEngine.threadId := thread;
     GroupingEngine.category := "bug"; GroupingEngine.summary := summary;
     GroupingEngine.embedding := [] |}.

(** * The rest of the front end *)

(** ** hooks/useIssueGroups.ts: lists and counts *)

(** [select('*')] on [issue_groups]. *)
Definition select_issue_groups (db : DB) : list IssueGroup :=
  (λ kv, {| ig_id := kv.1; ig_row := kv.2 |}) <$> map_to_list (issue_groups db).

(** [n || 0] on an optional count. *)
Definition or_zero (x : option nat) : nat :=
  match x with
  | Some n => if n is O then O else n
  | None => O
  end.

(** [select('group_id')] on [message_groups], then
    [counts[row.group_id] = (counts[row.group_id] || 0) + 1] for each row. *)
Definition fetchMessageCounts (db : DB) : gmap uuid nat :=
  foldl (λ counts group_id, <[group_id := (or_zero (counts !! group_id) + 1)%nat]> counts)
        ∅
        ((λ kv : (uuid * uuid) * message_groups_row, kv.1.2)
           <$> map_to_list (message_groups db)).

(** [select('*').order('created_at', { ascending: false })], then the
    counts: what the hook puts into [issueGroups] and [messageCounts]. *)
Definition fetchIssueGroups (db : DB) : list IssueGroup * gmap uuid nat :=
  (merge_sort created_desc (select_issue_groups db), fetchMessageCounts db).

(** ** Dashboard.tsx *)

(** [messageCounts[group.id] || 0], the number shown on a card. *)
Definition messageCount (messageCounts : gmap uuid nat) (group_id : uuid) : nat :=
  or_zero (messageCounts !! group_id).

(** The inline category filter of the first dashboard. *)
Definition filteredGroups (selectedCategory : CategoryFilter)
    (issueGroups : list IssueGroup) : list IssueGroup :=
  if bool_decide (selectedCategory = cat_all) then issueGroups
  else List.filter
         (λ group, bool_decide (g_category (ig_row group)
                                = CategoryFilter_str selectedCategory))
         issueGroups.

(** [issueGroups.filter(g => g.category === category).length], the count
    on a category button and on the statistics cards. *)
Definition categoryCount (issueGroups : list IssueGroup) (category : string) : nat :=
  length (List.filter (λ g, bool_decide (g_category (ig_row g) = category)) issueGroups).

(** The dashboard's state around the dialog: the hook's list and the
    selected group. *)
Record Dashboard := {
  issueGroups : list IssueGroup;
  selectedGroup_state : option IssueGroup
}.

Definition handleToggleStatus (env : Env) (groupId : uuid) (currentStatus : string)
    (db : DB) (d : Dashboard) : DB * Dashboard :=
  let '(db', issueGroups') :=
    toggleGroupStatus env groupId currentStatus db (issueGroups d) in
  (db',
   {| issueGroups := issueGroups';
      selectedGroup_state :=
        match selectedGroup_state d with
        | Some selected =>
            if decide (ig_id selected = groupId)
            then Some {| ig_id := ig_id selected;
                         ig_row := set_column
                                     (SetStatus (if decide (currentStatus = "open")
                                                 then "resolved" else "open"))
                                     (ig_row selected) |}
            else Some selected
        | None => None
        end |}).

(** A click on the status button of the dialog:
    [onToggleStatus(selectedGroup.id, selectedGroup.status)]. *)
Definition clickToggleStatus (env : Env) (st : DB * Dashboard) : DB * Dashboard :=
  match selectedGroup_state st.2 with
  | Some selected =>
      handleToggleStatus env (ig_id selected) (g_status (ig_row selected)) st.1 st.2
  | None => st
  end.

(** ** The migration that adds [workflow_status] *)

(** [CASE WHEN status = 'open' THEN 'backlog' ... ELSE 'backlog' END]. *)
Definition migration_case (status : string) : string :=
  if decide (status = "open") then "backlog"
  else if decide (status = "resolved") then "resolved"
  else if decide (status = "closed") then "closed"
  else "backlog".

(** [UPDATE issue_groups SET workflow_status = CASE ... END
     WHERE workflow_status = 'backlog'], with the [updated_at] trigger on
    the rows it updates. *)
Definition migration_update_row (now : timestamptz) (r : issue_groups_row)
  : issue_groups_row :=
  if decide (g_workflow_status r = "backlog")
  then update_updated_at_column now
         (set_column (SetWorkflowStatus (migration_case (g_status r))) r)
  else r.

Definition migration_update (now : timestamptz) (db : DB) : DB :=
  {| messages := messages db;
     issue_groups := migration_update_row now <$> issue_groups db;
     message_groups := message_groups db |}.

(** ** Further statements *)

(** Every row of [issue_groups] satisfies the [CHECK] constraints. *)
Definition checks_ok (db : DB) : Prop :=
  ∀ gid r, issue_groups db !! gid = Some r → issue_groups_checks r = true.

Definition checks_okb (db : DB) : bool :=
  bool_decide (map_Forall (λ (_ : uuid) r, issue_groups_checks r = true)
                          (issue_groups db)).

(** The stored status of a group and the status the dialog shows. *)
Definition stored_status (db : DB) (group_id : uuid) : option string :=
  g_status <$> issue_groups db !! group_id.

Definition shown_status (d : Dashboard) : option string :=
  (λ g, g_status (ig_row g)) <$> selectedGroup_state d.

Definition starts_with_whitespace (s : string) : bool :=
  match s with
  | EmptyString => false
  | String c _ => is_whitespace c
  end.

Definition ends_with_whitespace (s : string) : bool :=
  starts_with_whitespace (String.rev s).

(** What a handler keeps of the store: the table [messages] as it is, the
    foreign keys of [message_groups] and the [CHECK]s of [issue_groups]. *)
Definition keeps_invariants (db db' : DB) : Prop :=
  messages db' = messages db
  ∧ (references_ok db → references_ok db')
  ∧ (checks_ok db → checks_ok db').
(** * Properties *)

(** ** Links, members and keys *)

Lemma elem_of_members db mid gid :
  mid ∈ members db gid ↔ linked db mid gid.
Proof.
  unfold members, linked. rewrite elem_of_map. split.
  - intros [[m g] [-> [Hg Hd]%elem_of_filter]]. simpl in *. subst g.
    by apply elem_of_dom.
  - intros H. exists (mid, gid). split; [done |].
    apply elem_of_filter. split; [done | by apply elem_of_dom].
Qed.

Lemma elem_of_groups_of db mid gid :
  gid ∈ groups_of db mid ↔ linked db mid gid.
Proof.
  unfold groups_of, linked. rewrite elem_of_map. split.
  - intros [[m g] [-> [Hg Hd]%elem_of_filter]]. simpl in *. subst m.
    by apply elem_of_dom.
  - intros H. exists (mid, gid). split; [done |].
    apply elem_of_filter. split; [done | by apply elem_of_dom].
Qed.


(** Every statement keeps the two foreign keys of [message_groups]. *)
Lemma exec_references_ok env req db :
  references_ok db → references_ok (exec env req db).1.
Proof.
  intros Hok. destruct req as [t s c st | gid patch | gid | mid gid sc | mid gid]; simpl.
  - destruct (negb _); [done |].
    destruct (issue_groups db !! gen_random_uuid env) eqn:E; [done |].
    intros m g H. simpl in *. destruct (Hok m g H) as [? ?]. split; [done |].
    destruct (decide (gen_random_uuid env = g)) as [->|];
      [rewrite lookup_insert_eq | rewrite lookup_insert_ne]; eauto.
  - destruct (issue_groups db !! gid) eqn:E; [| done].
    destruct (negb _); [done |].
    intros m g H. simpl in *. destruct (Hok m g H) as [? ?]. split; [done |].
    destruct (decide (gid = g)) as [->|];
      [rewrite lookup_insert_eq | rewrite lookup_insert_ne]; eauto.
  - intros m g [r Hr]. simpl in *.
    apply map_lookup_filter_Some in Hr as [Hr Hne]. simpl in Hne.
    destruct (Hok m g (mk_is_Some _ _ Hr)) as [? ?]. split; [done |].
    by rewrite lookup_delete_ne.
  - destruct (messages db !! mid) as [mrow|] eqn:Em; [| done].
    destruct (issue_groups db !! gid) as [grow|] eqn:Eg; [| done].
    destruct (message_groups db !! (mid, gid)) eqn:E; [done |].
    intros m g H. simpl in *.
    destruct (decide ((mid, gid) = (m, g))) as [[= <- <-]|Hne].
    + rewrite Em, Eg. eauto.
    + rewrite lookup_insert_ne in H by done. by apply Hok.
  - intros m g H. simpl in *.
    destruct (decide ((mid, gid) = (m, g))) as [Heq|Hne].
    + rewrite Heq, lookup_delete_eq in H. by destruct H.
    + rewrite lookup_delete_ne in H by done. by apply Hok.
Qed.

Lemma observable_references_ok env reqs db s :
  references_ok db → s ∈ observable env reqs db → references_ok s.
Proof.
  revert db. induction reqs as [| r rs IH]; intros db Hok Hs.
  - simpl in Hs. apply list_elem_of_singleton in Hs. by subst.
  - simpl in Hs. apply elem_of_cons in Hs as [-> | Hs]; [done |].
    apply (IH (exec env r db).1); [by apply exec_references_ok | done].
Qed.

Lemma run_app env r1 r2 db : run env (r1 ++ r2) db = run env r2 (run env r1 db).
Proof. unfold run. apply foldl_app. Qed.

Lemma last_observable env reqs db :
  last (observable env reqs db) = Some (run env reqs db).
Proof.
  revert db. induction reqs as [| r rs IH]; intros db; [done |].
  change (observable env (r :: rs) db)
    with (db :: observable env rs (exec env r db).1).
  rewrite last_cons, IH. done.
Qed.

(** ** Membership exclusivity at the persistence boundary *)

Lemma exclusive_db_one_link : exclusive db_one_link.
Proof.
  intros mid g1 g2 [r1 H1]%elem_of_groups_of [r2 H2]%elem_of_groups_of.
  unfold linked in *. simpl in *.
  apply lookup_singleton_Some in H1 as [[= <- <-] _].
  apply lookup_singleton_Some in H2 as [[= <-] _]. done.
Qed.

(** C5, counterexample: the insert of [("m1", "g2")] is accepted although
    [m1] is already linked to [g1]. *)
Lemma exclusivity_not_enforced : ¬ exclusivity_enforced.
Proof.
  intros H.
  destruct (H sample_env db_one_link "m1" "g2" 0.7%float exclusive_db_one_link)
    as [Hrej _].
  assert ("g1" ∈ groups_of db_one_link "m1") as Hin.
  { apply elem_of_groups_of. vm_compute. eauto. }
  assert ("g1" ≠ "g2") as Hne by discriminate.
  destruct (Hrej "g1" Hne Hin) as [e He].
  vm_compute in He. discriminate He.
Qed.

(** C5, as the schema has it: the insert of a link is refused exactly when
    the same (message, group) pair is already there; a link to another group
    does not matter, and an accepted insert adds the group to the groups of
    the message. *)
Theorem insert_refused_only_for_same_pair env db mid gid score :
  is_Some (messages db !! mid) →
  is_Some (issue_groups db !! gid) →
  (is_Some (message_groups db !! (mid, gid)) →
     exec env (InsertMessageGroup mid gid score) db = (db, Failure unique_violation))
  ∧ (message_groups db !! (mid, gid) = None →
     (exec env (InsertMessageGroup mid gid score) db).2 = Success None
     ∧ groups_of (exec env (InsertMessageGroup mid gid score) db).1 mid
       = {[ gid ]} ∪ groups_of db mid).
Proof.
  intros [mrow Hm] [grow Hg]. simpl. rewrite Hm, Hg. split.
  - intros [r Hr]. by rewrite Hr.
  - intros Hnone. rewrite Hnone. split; [done |].
    apply set_eq. intros g.
    rewrite elem_of_union, elem_of_singleton, !elem_of_groups_of.
    unfold linked. simpl.
    destruct (decide (g = gid)) as [->|Hne].
    + rewrite lookup_insert_eq. split; eauto.
    + rewrite lookup_insert_ne by congruence.
      split; [by right | by intros [? | ?]].
Qed.

Lemma insert_refused_only_for_same_pair_witness :
  (exec sample_env (InsertMessageGroup "m1" "g2" 0.7%float) db_one_link).2 = Success None
  ∧ groups_of (exec sample_env (InsertMessageGroup "m1" "g2" 0.7%float) db_one_link).1 "m1"
    = {[ "g2" ]} ∪ groups_of db_one_link "m1".
Proof.
  apply (insert_refused_only_for_same_pair sample_env db_one_link "m1" "g2" 0.7%float).
  - vm_compute. eauto.
  - vm_compute. eauto.
  - vm_compute. reflexivity.
Defined.

(** ** Filters of the dashboard *)

Lemma trimStart_whitespace_only s : whitespace_only s = true → trimStart s = "".
Proof.
  induction s as [| c s IH]; simpl; [done |].
  intros [Hc Hs]%andb_prop. rewrite Hc. auto.
Qed.

Lemma trim_whitespace_only s : whitespace_only s = true → trim s = "".
Proof. intros H. unfold trim. by rewrite (trimStart_whitespace_only s H). Qed.

Lemma filter_all_pass {A} (f : A → bool) (l : list A) :
  (∀ x, f x = true) → List.filter f l = l.
Proof.
  intros Hf. induction l as [| x l IH]; simpl; [done |].
  by rewrite Hf, IH.
Qed.

(** C10: with the category filter and the time filter on "all" and a
    search text that is empty or made of white space only, the filter
    returns its input list, same groups in the same order. *)
Theorem filterIssueGroups_all_pass (JS : JsRuntime) now groups searchQuery :
  whitespace_only searchQuery = true →
  filterIssueGroups now groups cat_all time_all searchQuery = groups.
Proof.
  intros Hq. unfold filterIssueGroups. simpl.
  rewrite (trim_whitespace_only _ Hq).
  rewrite !filter_all_pass; done.
Qed.

Lemma filterIssueGroups_all_pass_witness :
  filterIssueGroups (H := ascii_runtime) 9000 sample_groups cat_all time_all "   "
  = sample_groups.
Proof.
  apply (filterIssueGroups_all_pass ascii_runtime 9000 sample_groups "   ").
  vm_compute. reflexivity.
Defined.

(** ** Edits of a single group *)

Lemma check_status_spec v : check_status v = true ↔ v = "open" ∨ v = "closed".
Proof.
  unfold check_status. rewrite bool_decide_eq_true, !elem_of_cons, elem_of_nil.
  tauto.
Qed.









(** C9: the status toggle sends one update whose only column is [status],
    set to "resolved" when the current status is "open" and to "open"
    otherwise; the [CHECK] of the base schema admits "open" and "closed"
    only, so on a group that exists the update to "resolved" is refused and
    neither the store nor the local list changes. *)
Theorem toggleGroupStatus_request_spec env groupId currentStatus db issueGroups :
  toggleGroupStatus_request groupId currentStatus
  = UpdateIssueGroup groupId
      [SetStatus (if decide (currentStatus = "open") then "resolved" else "open")]
  ∧ (toggleGroupStatus env groupId currentStatus db issueGroups).1
    = (exec env (toggleGroupStatus_request groupId currentStatus) db).1
  ∧ (∀ v, check_status v = true ↔ v = "open" ∨ v = "closed")
  ∧ (currentStatus = "open" → is_Some (issue_groups db !! groupId) →
     toggleGroupStatus env groupId currentStatus db issueGroups = (db, issueGroups)).
Proof.
  split; [done |]. split; [| split].
  - unfold toggleGroupStatus.
    by destruct (exec env _ db) as [db' [r|e]].
  - apply check_status_spec.
  - intros -> [old E]. unfold toggleGroupStatus, toggleGroupStatus_request.
    simpl. rewrite E. unfold issue_groups_checks. simpl.
    by rewrite !andb_false_r.
Qed.

Lemma toggleGroupStatus_request_spec_witness :
  toggleGroupStatus sample_env "g1" "open" db_one_link sample_groups
  = (db_one_link, sample_groups).
Proof.
  apply (toggleGroupStatus_request_spec sample_env "g1" "open" db_one_link sample_groups).
  - reflexivity.
  - vm_compute. eauto.
Defined.

(** ** Grouping engine: similarity gate and thread stickiness *)

Lemma SFcompare_Lt_swap x y : SFcompare x y = Some Lt → SFcompare y x = Some Gt.
Proof.
  destruct x as [sx | sx | | sx mx ex], y as [sy | sy | | sy my ey]; simpl;
    try discriminate; try (destruct sx; try destruct sy; simpl; congruence).
  pose proof (Pos.compare_antisym mx my) as Hm. unfold Pos.compare in Hm.
  destruct sx, sy; simpl; try congruence;
    rewrite (Z.compare_antisym ex ey), Hm;
    destruct (Z.compare ex ey), (Pos.compare_cont Eq mx my); simpl; congruence.
Qed.

Lemma ltb_not_leb (x y : float) :
  PrimFloat.ltb x y = true → PrimFloat.leb y x = false.
Proof.
  rewrite ltb_spec, leb_spec. unfold SFltb, SFleb.
  destruct (SFcompare (Prim2SF x) (Prim2SF y)) as [[]|] eqn:E; try discriminate.
  intros _. by rewrite (SFcompare_Lt_swap _ _ E).
Qed.

Section Engine.
Import GroupingEngine.
Variables (cfg : Config) (fresh : uuid) (st : State) (m : InboundMessage).


End Engine.

(** C6 (engine modelled from the specification): for a message that no
    thread rule claims, a best neighbour below the threshold makes the
    engine allocate a new group, which is not the neighbour's group, and a
    best neighbour at or above the threshold makes it join the neighbour's
    group with the observed similarity recorded. *)
Theorem similarity_gate cfg store fresh st m best rest :
  GroupingEngine.thread_group st m = None →
  GroupingEngine.nearest store (GroupingEngine.embedding m)
    (GroupingEngine.category m) (GroupingEngine.k cfg) (GroupingEngine.w cfg)
  = best :: rest →
  GroupingEngine.groups st !! fresh = None →
  is_Some (GroupingEngine.groups st !! GroupingEngine.groupId best) →
  let st' := (GroupingEngine.assign cfg store fresh st m).1 in
  let d := (GroupingEngine.assign cfg store fresh st m).2 in
  (PrimFloat.ltb (GroupingEngine.cosineSimilarity best) (GroupingEngine.T cfg) = true →
     GroupingEngine.rule d = GroupingEngine.new_group
     ∧ GroupingEngine.target d = fresh
     ∧ GroupingEngine.target d ≠ GroupingEngine.groupId best
     ∧ GroupingEngine.groups st' !! fresh = Some (GroupingEngine.allocate m)
     ∧ fst <$> GroupingEngine.memberships st' !! GroupingEngine.id m = Some fresh)
  ∧ (PrimFloat.leb (GroupingEngine.T cfg) (GroupingEngine.cosineSimilarity best) = true →
     d = {| GroupingEngine.rule := GroupingEngine.semantic_nearest_neighbor;
            GroupingEngine.target := GroupingEngine.groupId best;
            GroupingEngine.similarity := GroupingEngine.cosineSimilarity best |}
     ∧ GroupingEngine.groups st' = GroupingEngine.groups st
     ∧ GroupingEngine.memberships st' !! GroupingEngine.id m
       = Some (GroupingEngine.groupId best, GroupingEngine.cosineSimilarity best)).
Proof.
  intros Hthread Hnear Hfresh [grp Hgrp] st' d. subst st' d.
  unfold GroupingEngine.assign, GroupingEngine.decide_assignment.
  rewrite Hthread, Hnear. simpl. split.
  - intros Hlt. rewrite (ltb_not_leb _ _ Hlt). simpl.
    rewrite !lookup_insert_eq. repeat split; try done.
    intros Heq. rewrite Heq in Hfresh. congruence.
  - intros Hle. rewrite Hle. simpl. rewrite lookup_insert_eq. done.
Qed.

Lemma similarity_gate_witness :
  GroupingEngine.rule
    (GroupingEngine.assign engine_cfg (store_with_best 0.55%float) "g2" engine_state
       (inbound "m1" None "error 500 on dashboard")).2
  = GroupingEngine.new_group
  ∧ GroupingEngine.memberships
      (GroupingEngine.assign engine_cfg (store_with_best 0.62%float) "g2" engine_state
         (inbound "m1" None "error 500 on dashboard")).1 !! "m1"
    = Some ("g1", 0.62%float).
Proof.
  split.
  - apply (similarity_gate engine_cfg (store_with_best 0.55%float) "g2" engine_state
             (inbound "m1" None "error 500 on dashboard")
             {| GroupingEngine.messageId := "m0"; GroupingEngine.groupId := "g1";
                GroupingEngine.cosineSimilarity := 0.55%float |} []).
    + reflexivity.
    + reflexivity.
    + vm_compute. reflexivity.
    + vm_compute. eauto.
    + vm_compute. reflexivity.
  - apply (similarity_gate engine_cfg (store_with_best 0.62%float) "g2" engine_state
             (inbound "m1" None "error 500 on dashboard")
             {| GroupingEngine.messageId := "m0"; GroupingEngine.groupId := "g1";
                GroupingEngine.cosineSimilarity := 0.62%float |} []).
    + reflexivity.
    + reflexivity.
    + vm_compute. reflexivity.
    + vm_compute. eauto.
    + vm_compute. reflexivity.
Defined.



(** ** Moving links: the loop of [handleMergeIntoGroup] *)

Lemma elem_of_fetchGroupMessages db g msg :
  msg ∈ fetchGroupMessages db g ↔
  linked db (msg_id msg) g
  ∧ messages db !! msg_id msg = Some (msg_row msg)
  ∧ msg_similarity_score msg = None.
Proof.
  unfold fetchGroupMessages, linked. rewrite list_elem_of_omap. split.
  - intros [[[mid gid] link] [Hin Hf]]. simpl in Hf.
    apply elem_of_map_to_list in Hin.
    destruct (decide (gid = g)) as [->|]; [| done].
    destruct (messages db !! mid) as [r|] eqn:Em; [| done].
    simpl in Hf. injection Hf as <-. simpl. eauto.
  - intros ([link Hl] & Hm & Hs).
    exists ((msg_id msg, g), link). split; [by apply elem_of_map_to_list |].
    simpl. rewrite decide_True by done. rewrite Hm. simpl.
    destruct msg; simpl in *; by subst.
Qed.

Lemma fetchGroupMessages_ids db g x :
  references_ok db →
  x ∈ msg_id <$> fetchGroupMessages db g ↔ linked db x g.
Proof.
  intros Hok. rewrite list_elem_of_fmap. split.
  - intros [msg [-> Hin]]. by apply elem_of_fetchGroupMessages in Hin as [? _].
  - intros Hl. destruct (Hok x g Hl) as [[r Hr] _].
    exists {| msg_id := x; msg_row := r; msg_similarity_score := None |}.
    split; [done |]. by apply elem_of_fetchGroupMessages.
Qed.

Lemma move_links env src tgt msg db :
  src ≠ tgt →
  is_Some (messages db !! msg_id msg) →
  is_Some (issue_groups db !! tgt) →
  messages (run env (merge_move src tgt msg) db) = messages db
  ∧ issue_groups (run env (merge_move src tgt msg) db) = issue_groups db
  ∧ ∀ x g, linked (run env (merge_move src tgt msg) db) x g ↔
           (x = msg_id msg ∧ g = tgt)
           ∨ (linked db x g ∧ ¬ (x = msg_id msg ∧ g = src)).
Proof.
  intros Hne [mrow Hm] [grow Hg]. unfold run, merge_move, linked. simpl.
  rewrite Hm, Hg.
  assert (∀ x g, is_Some (delete (msg_id msg, src) (message_groups db) !! (x, g))
                 ↔ is_Some (message_groups db !! (x, g))
                   ∧ ¬ (x = msg_id msg ∧ g = src)) as Hdel.
  { intros x g. destruct (decide ((msg_id msg, src) = (x, g))) as [[= <- <-]|Hd].
    - rewrite lookup_delete_eq. split; [by intros [? ?] | by intros [_ []]].
    - rewrite lookup_delete_ne by done. split; [| tauto].
      intros H. split; [done |]. intros [-> ->]. done. }
  destruct (delete (msg_id msg, src) (message_groups db) !! (msg_id msg, tgt))
    as [old|] eqn:E; simpl; (split; [done |]; split; [done |]); intros x g.
  - rewrite Hdel. split; [tauto |].
    intros [[-> ->] | H]; [| done].
    apply Hdel. eauto.
  - destruct (decide ((msg_id msg, tgt) = (x, g))) as [[= <- <-]|Hd].
    + rewrite lookup_insert_eq. split; eauto.
    + rewrite lookup_insert_ne by done. rewrite Hdel. split; [tauto |].
      intros [[-> ->] | H]; [done | done].
Qed.

Lemma merge_loop_links env src tgt ms : ∀ db,
  src ≠ tgt →
  (∀ msg, msg ∈ ms → is_Some (messages db !! msg_id msg)) →
  is_Some (issue_groups db !! tgt) →
  messages (run env (ms ≫= merge_move src tgt) db) = messages db
  ∧ issue_groups (run env (ms ≫= merge_move src tgt) db) = issue_groups db
  ∧ ∀ x g, linked (run env (ms ≫= merge_move src tgt) db) x g ↔
           (x ∈ msg_id <$> ms ∧ g = tgt)
           ∨ (linked db x g ∧ ¬ (x ∈ msg_id <$> ms ∧ g = src)).
Proof.
  induction ms as [| msg ms IH]; intros db Hne Hms Htgt.
  - simpl. split; [done |]. split; [done |]. intros x g.
    rewrite elem_of_nil. tauto.
  - rewrite bind_cons, run_app.
    destruct (move_links env src tgt msg db Hne) as (Hm1 & Hg1 & Hl1);
      [apply Hms; by left | done |].
    destruct (IH (run env (merge_move src tgt msg) db) Hne) as (Hm2 & Hg2 & Hl2).
    { intros msg' Hin. rewrite Hm1. apply Hms. by right. }
    { by rewrite Hg1. }
    split; [congruence |]. split; [congruence |]. intros x g.
    rewrite Hl2, Hl1, fmap_cons, elem_of_cons.
    destruct (decide (g = tgt)); destruct (decide (g = src)); subst; tauto.
Qed.

Lemma delete_group_links env gid db :
  messages (exec env (DeleteIssueGroup gid) db).1 = messages db
  ∧ issue_groups (exec env (DeleteIssueGroup gid) db).1 = delete gid (issue_groups db)
  ∧ ∀ x g, linked (exec env (DeleteIssueGroup gid) db).1 x g ↔ g ≠ gid ∧ linked db x g.
Proof.
  simpl. split; [done |]. split; [done |]. intros x g. unfold linked. simpl.
  split.
  - intros [r Hr]. apply map_lookup_filter_Some in Hr as [Hr Hg]. eauto.
  - intros [Hg [r Hr]]. exists r. by apply map_lookup_filter_Some.
Qed.


Lemma references_okb_correct db : references_okb db = true → references_ok db.
Proof.
  intros H%bool_decide_eq_true mid gid [r Hr].
  exact (H (mid, gid) r Hr).
Qed.

Lemma exclusiveb_correct db : exclusiveb db = true → exclusive db.
Proof.
  intros H%bool_decide_eq_true mid g1 g2
         [r1 H1]%elem_of_groups_of [r2 H2]%elem_of_groups_of.
  exact (H (mid, g1) r1 H1 (mid, g2) r2 H2 eq_refl).
Qed.

Lemma observable_take env reqs n db :
  run env (take n reqs) db ∈ observable env reqs db.
Proof.
  revert n db. induction reqs as [| r rs IH]; intros n db.
  - rewrite take_nil. by left.
  - destruct n as [| n]; [by left |].
    change (observable env (r :: rs) db)
      with (db :: observable env rs (exec env r db).1).
    right. apply (IH n).
Qed.

(** ** Merge *)

Lemma length_merge_moves source target ms :
  length (ms ≫= merge_move source target) = (2 * length ms)%nat.
Proof.
  induction ms as [| msg ms IH]; [done |].
  rewrite bind_cons, length_app, IH. simpl. lia.
Qed.




(** The same merge, state by state: [gA] is gone, [gB] has its two
    messages, and the three messages of [gA] are left without a group. *)
Example merge_from_unloaded_list :
  let db' := handleMergeIntoGroup sample_env modal_A_unloaded true "gB" db_A3_B2 in
  issue_groups db' !! "gA" = None
  ∧ members db' "gB" = {[ "m4"; "m5" ]}
  ∧ groups_of db' "m1" = ∅ ∧ groups_of db' "m2" = ∅ ∧ groups_of db' "m3" = ∅
  ∧ messages db' = messages db_A3_B2.
Proof. vm_compute. repeat split; reflexivity. Qed.

(** With [m1] linked to both groups (three links each) and the message
    list current, the insert of the link of [m1] to [gB] is refused by the
    primary key: [gB] ends with five members, not six. *)
Example merge_counts_shared_message_once :
  let modal := open_modal db_A3_B3_shared group_A in
  let db' := handleMergeIntoGroup sample_env modal true "gB" db_A3_B3_shared in
  size (members db_A3_B3_shared "gA") = 3%nat
  ∧ size (members db_A3_B3_shared "gB") = 3%nat
  ∧ members db' "gB" = {[ "m1"; "m2"; "m3"; "m4"; "m5" ]}
  ∧ size (members db' "gB") = 5%nat
  ∧ issue_groups db' !! "gA" = None.
Proof. vm_compute. repeat split; reflexivity. Qed.

(** C1, counterexample: after the first delete and insert of the merge of
    [gA] into [gB], [m3] is in [gB] while [m1] is still in [gA]. *)
Lemma merge_not_atomic : ¬ merge_atomic.
Proof.
  intros H.
  destruct (H sample_env db_A3_B2 group_A "gB") as [Hobs _].
  { apply references_okb_correct. vm_compute. reflexivity. }
  destruct (Hobs (run sample_env
                    (take 2 (handleMergeIntoGroup_requests
                               (open_modal db_A3_B2 group_A) true "gB"))
                    db_A3_B2)) as [Hpart _].
  { apply observable_take. }
  apply Hpart. exists "m3", "m1". unfold linked.
  repeat split; try (vm_compute; eauto; fail);
    vm_compute; intros [? ?]; discriminate.
Qed.

(** C1, as the code has it: the merge is a sequence of separately committed
    requests, none when the target is not among the listed groups or the
    user declines (the store is then left as it was), otherwise two per
    loaded message and one for the source group; in every state a reader
    can see the foreign keys hold, so the source group is never gone while
    links still point to it. *)
Theorem merge_is_a_sequence_of_commits env modal confirm target db :
  references_ok db →
  let source := ig_id (selectedGroup modal) in
  let reqs := handleMergeIntoGroup_requests modal confirm target in
  (List.find (λ g, bool_decide (ig_id g = target)) (availableGroups modal) = None
   ∨ confirm = false →
   reqs = [] ∧ handleMergeIntoGroup env modal confirm target db = db)
  ∧ (is_Some (List.find (λ g, bool_decide (ig_id g = target)) (availableGroups modal)) →
     confirm = true →
     length reqs = (2 * length (groupMessages modal) + 1)%nat)
  ∧ (∀ s, s ∈ observable env reqs db → references_ok s ∧ ¬ dangling s source)
  ∧ last (observable env reqs db)
    = Some (handleMergeIntoGroup env modal confirm target db).
Proof.
  intros Hok source reqs. subst reqs.
  unfold handleMergeIntoGroup, handleMergeIntoGroup_requests.
  split; [| split; [| split]].
  - intros [Hnone | ->].
    + by rewrite Hnone.
    + by destruct (List.find _ _).
  - intros [tg Hfind] ->. rewrite Hfind. unfold merge_requests.
    rewrite length_app, length_merge_moves. simpl. lia.
  - intros s Hs.
    pose proof (observable_references_ok _ _ _ _ Hok Hs) as Hs_ok.
    split; [done |]. intros [Hgone [x Hx]].
    destruct (Hs_ok x source Hx) as [_ [grp Hgrp]]. congruence.
  - apply last_observable.
Qed.

Lemma merge_is_a_sequence_of_commits_witness :
  length (handleMergeIntoGroup_requests (open_modal db_A3_B2 group_A) true "gB")
  = (2 * 3 + 1)%nat.
Proof.
  destruct (merge_is_a_sequence_of_commits sample_env (open_modal db_A3_B2 group_A)
              true "gB" db_A3_B2) as (_ & Hlen & _).
  - apply references_okb_correct. vm_compute. reflexivity.
  - rewrite Hlen; [vm_compute; reflexivity | vm_compute; eauto | reflexivity].
Defined.

(** A target deleted after the dialog listed it: every insert is refused,
    the refusals are dropped, and the messages of the source end up in no
    group. *)
Example merge_into_deleted_target :
  let db := (exec sample_env (DeleteIssueGroup "gB") db_A3_B2).1 in
  let db' := handleMergeIntoGroup sample_env (open_modal db_A3_B2 group_A)
               true "gB" db in
  message_groups db' = ∅ ∧ issue_groups db' = ∅.
Proof. vm_compute. done. Qed.

(** C2: on a link stored with score 0.72 the merge recreates the link with
    score 1.0. *)
Lemma merge_resets_similarity_score :
  let modal := open_modal db_one_link group_1 in
  let db' := handleMergeIntoGroup sample_env modal true "g2" db_one_link in
  mg_similarity_score <$> message_groups db_one_link !! ("m1", "g1") = Some (Some 0.72%float)
  ∧ groupMessages modal
    = [ {| msg_id := "m1"; msg_row := sample_message; msg_similarity_score := None |} ]
  ∧ mg_similarity_score <$> message_groups db' !! ("m1", "g2") = Some (Some 1%float).
Proof. vm_compute. done. Qed.

(** Whatever the store holds, every insert of a merge started from a
    freshly fetched message list carries the score 1.0. *)
Lemma merge_requests_score db group target :
  Forall (λ r, match r with
               | InsertMessageGroup _ _ score => score = 1%float
               | _ => True
               end)
         (merge_requests (open_modal db group) target).
Proof.
  unfold merge_requests. apply Forall_app. split; [| by repeat constructor].
  simpl. apply Forall_bind, Forall_forall. intros msg Hin.
  apply elem_of_fetchGroupMessages in Hin as (_ & _ & Hs).
  unfold compose, merge_move. rewrite Hs. by repeat constructor.
Qed.

(** ** Split *)

Lemma fetchGroupMessages_NoDup db g : NoDup (msg_id <$> fetchGroupMessages db g).
Proof.
  unfold fetchGroupMessages.
  pose proof (NoDup_fst_map_to_list (message_groups db)) as Hnd.
  induction (map_to_list (message_groups db)) as [| [[mid gid] link] l IH];
    simpl in *; [constructor |].
  apply NoDup_cons in Hnd as [Hnotin Hnd].
  destruct (decide (gid = g)) as [->|]; [| by apply IH].
  destruct (messages db !! mid) as [r|]; simpl; [| by apply IH].
  apply NoDup_cons. split; [| by apply IH].
  intros Hin. apply Hnotin.
  apply list_elem_of_fmap in Hin as [msg [Hid Hmsg]].
  apply list_elem_of_omap in Hmsg as [[[mid' gid'] link'] [Hin' Hf]].
  simpl in Hf. destruct (decide (gid' = g)) as [->|]; [| done].
  destruct (messages db !! mid') as [r'|]; [| done].
  simpl in Hf. injection Hf as <-. simpl in Hid. subst mid'.
  apply list_elem_of_fmap. by exists (mid, g, link').
Qed.

(** A loaded list of more than one message names a member other than any
    given one. *)
Lemma other_loaded_message db g x :
  (1 < length (fetchGroupMessages db g))%nat →
  ∃ y, linked db y g ∧ y ≠ x.
Proof.
  intros Hlen.
  pose proof (fetchGroupMessages_NoDup db g) as Hnd.
  assert (∀ msg, msg ∈ fetchGroupMessages db g → linked db (msg_id msg) g) as Hl.
  { intros msg Hin. by apply elem_of_fetchGroupMessages in Hin as [? _]. }
  destruct (fetchGroupMessages db g) as [| a [| b l]]; simpl in Hlen; [lia | lia |].
  rewrite !fmap_cons in Hnd. apply NoDup_cons in Hnd as [Hab _].
  destruct (decide (msg_id a = x)) as [<-|Hax].
  - exists (msg_id b). split; [apply Hl; by right; left |].
    intros Heq. apply Hab. rewrite Heq. by left.
  - exists (msg_id a). split; [apply Hl; by left | done].
Qed.

(** C3, counterexample: two sessions have group [gX] open with its two
    messages; after the first has split [m2] out, the second splits [m1]:
    [gX] is left without members and is still there. *)
Lemma split_leaves_empty_source : ¬ split_deletes_emptied_source ascii_runtime.
Proof.
  intros H.
  specialize (H sample_env (open_modal db_X2 group_X) "m1" db_X1).
  simpl in H.
  assert (issue_groups
            (handleSplitMessage (H := ascii_runtime) sample_env
               (open_modal db_X2 group_X) true "m1" db_X1) !! "gX" = None) as Hgone.
  { apply H.
    - apply references_okb_correct. vm_compute. reflexivity.
    - vm_compute. reflexivity.
    - vm_compute. apply list_elem_of_In. simpl. tauto.
    - unfold linked. vm_compute. eauto.
    - vm_compute. reflexivity. }
  vm_compute in Hgone. discriminate Hgone.
Qed.

(** C3, as the code has it: a confirmed split of a loaded message whose
    category the schema admits inserts one new group, made from the message
    alone with legacy status "open", removes the link of the message to the
    selected group and links the message to the new group with score 1.0.
    No group is deleted: the selected group stays, with its other
    members, and when the message list is current and the "Split" button
    is shown it keeps at least one. *)
Theorem split_moves_message_to_new_group (JS : JsRuntime) env modal messageId message db :
  references_ok db →
  List.find (λ m, bool_decide (msg_id m = messageId)) (groupMessages modal)
  = Some message →
  check_category (m_category (msg_row message)) = true →
  issue_groups db !! gen_random_uuid env = None →
  is_Some (messages db !! messageId) →
  is_Some (issue_groups db !! ig_id (selectedGroup modal)) →
  let source := ig_id (selectedGroup modal) in
  let new := gen_random_uuid env in
  let db' := handleSplitMessage env modal true messageId db in
  messages db' = messages db
  ∧ issue_groups db' = <[new := split_row JS env message]> (issue_groups db)
  ∧ message_groups db'
    = <[(messageId, new) := {| mg_similarity_score := Some 1%float;
                               mg_created_at := NOW env |}]>
        (delete (messageId, source) (message_groups db))
  ∧ is_Some (issue_groups db' !! source)
  ∧ members db' new = {[ messageId ]}
  ∧ members db' source = members db source ∖ {[ messageId ]}
  ∧ (groupMessages modal = fetchGroupMessages db source →
     splitButtonShown modal = true →
     members db' source ≠ ∅).
Proof.
  intros Hok Hfind Hcat Hfresh [mrow Hm] [srow Hs] source new db'.
  subst source new.
  set (source := ig_id (selectedGroup modal)) in *.
  set (new := gen_random_uuid env) in *.
  assert (source ≠ new) as Hne by congruence.
  assert (∀ x, message_groups db !! (x, new) = None) as Hnolink.
  { intros x. destruct (message_groups db !! (x, new)) as [r|] eqn:E; [| done].
    destruct (Hok x new (mk_is_Some _ _ E)) as [_ [grp Hgrp]].
    congruence. }
  assert (db' = {| messages := messages db;
                   issue_groups := <[new := split_row JS env message]> (issue_groups db);
                   message_groups :=
                     <[(messageId, new) := {| mg_similarity_score := Some 1%float;
                                              mg_created_at := NOW env |}]>
                       (delete (messageId, source) (message_groups db)) |}) as Hdb'.
  { subst db'. unfold handleSplitMessage. simpl. rewrite Hfind.
    unfold split_insert. simpl.
    unfold issue_groups_checks. simpl. rewrite Hcat. simpl.
    fold new. rewrite Hfresh. unfold run. simpl. fold new source.
    rewrite Hm, lookup_insert_eq.
    rewrite lookup_delete_ne by congruence. rewrite Hnolink. done. }
  rewrite Hdb'. simpl.
  assert (members
            {| messages := messages db;
               issue_groups := <[new := split_row JS env message]> (issue_groups db);
               message_groups :=
                 <[(messageId, new) := {| mg_similarity_score := Some 1%float;
                                          mg_created_at := NOW env |}]>
                   (delete (messageId, source) (message_groups db)) |} source
          = members db source ∖ {[ messageId ]}) as Hrest.
  { apply set_eq. intros x.
    rewrite elem_of_difference, !elem_of_members, elem_of_singleton.
    unfold linked. simpl.
    rewrite lookup_insert_ne by congruence.
    destruct (decide (x = messageId)) as [->|Hx].
    + rewrite lookup_delete_eq. split; [by intros [? ?] | by intros [_ []]].
    + rewrite lookup_delete_ne by congruence. tauto. }
  split; [done |]. split; [done |]. split; [done |].
  split; [| split; [| split]].
  - rewrite lookup_insert_ne by done. eauto.
  - apply set_eq. intros x. rewrite elem_of_members, elem_of_singleton.
    unfold linked. simpl.
    destruct (decide (x = messageId)) as [->|Hx].
    + rewrite lookup_insert_eq. split; eauto.
    + rewrite lookup_insert_ne by congruence.
      rewrite lookup_delete_ne by congruence. rewrite Hnolink.
      split; [by intros [? ?] | done].
  - exact Hrest.
  - intros Hsnap Hshown. rewrite Hrest.
    destruct (other_loaded_message db source messageId) as (y & Hy & Hne').
    { rewrite <- Hsnap. unfold splitButtonShown in Hshown.
      by apply bool_decide_eq_true in Hshown. }
    intros Hempty. apply (not_elem_of_empty (C := gset uuid) y).
    rewrite <- Hempty. apply elem_of_difference. split.
    + by apply elem_of_members.
    + by rewrite elem_of_singleton.
Qed.

Lemma split_moves_message_to_new_group_witness :
  members (handleSplitMessage (H := ascii_runtime) sample_env
             (open_modal db_X2 group_X) true "m2" db_X2) "g9" = {[ "m2" ]}
  ∧ g_title <$> issue_groups
                  (handleSplitMessage (H := ascii_runtime) sample_env
                     (open_modal db_X2 group_X) true "m2" db_X2) !! "g9"
    = Some "Bug: dashboard error".
Proof.
  destruct (split_moves_message_to_new_group ascii_runtime sample_env
              (open_modal db_X2 group_X) "m2"
              {| msg_id := "m2"; msg_row := sample_message;
                 msg_similarity_score := None |} db_X2)
    as (_ & Hgroups & _ & _ & Hnew & _ & _).
  - apply references_okb_correct. vm_compute. reflexivity.
  - vm_compute. reflexivity.
  - vm_compute. reflexivity.
  - vm_compute. reflexivity.
  - vm_compute. eauto.
  - vm_compute. eauto.
  - split; [exact Hnew |].
    rewrite Hgroups. vm_compute. reflexivity.
Defined.

(** * Further properties of the front end *)

(** ** What the hooks load *)

#[global] Instance created_desc_trans : Transitive created_desc.
Proof. intros a b c. unfold created_desc. lia. Qed.

#[global] Instance created_desc_total : Total created_desc.
Proof. intros a b. unfold created_desc. lia. Qed.

Lemma StronglySorted_sublist {A} (R : relation A) l1 l2 :
  l1 `sublist_of` l2 → StronglySorted R l2 → StronglySorted R l1.
Proof.
  induction 1 as [| x l1 l2 Hsub IH | x l1 l2 Hsub IH]; intros Hs.
  - constructor.
  - apply StronglySorted_inv in Hs as [Hs Hall]. constructor; [by apply IH |].
    apply Forall_forall. intros y Hy.
    rewrite Forall_forall in Hall. apply Hall. by eapply elem_of_sublist.
  - apply StronglySorted_inv in Hs as [Hs _]. by apply IH.
Qed.

Lemma List_filter_sublist {A} (f : A → bool) l : List.filter f l `sublist_of` l.
Proof.
  induction l as [| x l IH]; simpl; [constructor |].
  destruct (f x); by constructor.
Qed.

Lemma elem_of_List_filter {A} (f : A → bool) l x :
  x ∈ List.filter f l ↔ x ∈ l ∧ f x = true.
Proof. rewrite !list_elem_of_In. apply filter_In. Qed.

Lemma elem_of_select_issue_groups db g :
  g ∈ select_issue_groups db ↔ issue_groups db !! ig_id g = Some (ig_row g).
Proof.
  unfold select_issue_groups. rewrite list_elem_of_fmap. split.
  - intros [[gid r] [-> Hin]]. simpl. by apply elem_of_map_to_list.
  - intros H. exists (ig_id g, ig_row g). split; [by destruct g |].
    by apply elem_of_map_to_list.
Qed.

Lemma select_issue_groups_ids db :
  ig_id <$> select_issue_groups db = (map_to_list (issue_groups db)).*1.
Proof.
  unfold select_issue_groups. rewrite <- list_fmap_compose. done.
Qed.

(** The links of one group, as rows of [message_groups]. *)
Lemma group_rows_NoDup db g :
  NoDup ((λ kv : (uuid * uuid) * message_groups_row, kv.1.1)
           <$> filter (λ kv : (uuid * uuid) * message_groups_row, kv.1.2 = g)
                      (map_to_list (message_groups db))).
Proof.
  apply NoDup_fmap_2_strong.
  - intros [[m1 g1] r1] [[m2 g2] r2]
           [Hg1 H1]%list_elem_of_filter [Hg2 H2]%list_elem_of_filter Heq.
    simpl in *. subst.
    apply elem_of_map_to_list in H1, H2. rewrite H1 in H2. by injection H2 as ->.
  - apply NoDup_filter, NoDup_map_to_list.
Qed.

Lemma members_as_rows db g :
  members db g
  = list_to_set ((λ kv : (uuid * uuid) * message_groups_row, kv.1.1)
                   <$> filter (λ kv : (uuid * uuid) * message_groups_row, kv.1.2 = g)
                              (map_to_list (message_groups db))).
Proof.
  apply set_eq. intros x.
  rewrite elem_of_members, elem_of_list_to_set, list_elem_of_fmap.
  unfold linked. split.
  - intros [r Hr]. exists ((x, g), r). split; [done |].
    apply list_elem_of_filter. split; [done | by apply elem_of_map_to_list].
  - intros [[[m g'] r] [-> [Hg Hin]%list_elem_of_filter]]. simpl in *. subst g'.
    apply elem_of_map_to_list in Hin. eauto.
Qed.

Lemma size_members_rows db g :
  size (members db g)
  = length (filter (λ kv : (uuid * uuid) * message_groups_row, kv.1.2 = g)
                   (map_to_list (message_groups db))).
Proof.
  rewrite members_as_rows, size_list_to_set by apply group_rows_NoDup.
  apply length_fmap.
Qed.

(** X1: on a store whose links all point to existing messages, the
    messages loaded for a group are its members, each once and with the row
    stored for it, so their number is the size of the group. *)
Theorem fetchGroupMessages_lists_members db g :
  references_ok db →
  NoDup (msg_id <$> fetchGroupMessages db g)
  ∧ (∀ x, x ∈ msg_id <$> fetchGroupMessages db g ↔ x ∈ members db g)
  ∧ length (fetchGroupMessages db g) = size (members db g)
  ∧ (∀ msg, msg ∈ fetchGroupMessages db g →
            messages db !! msg_id msg = Some (msg_row msg)).
Proof.
  intros Hok.
  assert (∀ x, x ∈ msg_id <$> fetchGroupMessages db g ↔ x ∈ members db g) as Hids.
  { intros x. rewrite elem_of_members. by apply fetchGroupMessages_ids. }
  split; [apply fetchGroupMessages_NoDup |]. split; [done |]. split.
  - rewrite <- (length_fmap msg_id).
    rewrite <- (size_list_to_set (C := gset uuid)) by apply fetchGroupMessages_NoDup.
    f_equal. apply set_eq. intros x. by rewrite elem_of_list_to_set.
  - intros msg Hin. by apply elem_of_fetchGroupMessages in Hin as (_ & ? & _).
Qed.

Lemma fetchGroupMessages_lists_members_witness :
  length (fetchGroupMessages db_A3_B2 "gA") = size (members db_A3_B2 "gA").
Proof.
  destruct (fetchGroupMessages_lists_members db_A3_B2 "gA") as (_ & _ & Hlen & _).
  - apply references_okb_correct. vm_compute. reflexivity.
  - exact Hlen.
Defined.

Lemma foldl_counts (l : list uuid) : ∀ (counts : gmap uuid nat) g,
  or_zero (foldl (λ counts group_id,
                    <[group_id := (or_zero (counts !! group_id) + 1)%nat]> counts)
                 counts l !! g)
  = (or_zero (counts !! g) + length (filter (λ x, x = g) l))%nat.
Proof.
  induction l as [| x l IH]; intros counts g; simpl; [lia |].
  rewrite IH, filter_cons.
  destruct (decide (x = g)) as [->|Hne].
  - rewrite lookup_insert_eq. simpl.
    replace (or_zero (counts !! g) + 1)%nat with (S (or_zero (counts !! g))) by lia.
    simpl. lia.
  - by rewrite lookup_insert_ne.
Qed.

(** X2: the number shown on the card of a group is the number of messages
    linked to it, and a group without messages has no entry in the counts. *)
Theorem messageCount_is_group_size db g :
  messageCount (fetchMessageCounts db) g = size (members db g)
  ∧ (fetchMessageCounts db !! g = None ↔ members db g = ∅).
Proof.
  assert (messageCount (fetchMessageCounts db) g = size (members db g)) as Hcount.
  { unfold messageCount, fetchMessageCounts. rewrite foldl_counts, lookup_empty.
    simpl. rewrite size_members_rows.
    induction (map_to_list (message_groups db)) as [| kv l IH]; [done |].
    rewrite fmap_cons, !filter_cons.
    destruct (decide (kv.1.2 = g)); simpl; by rewrite IH. }
  split; [done |].
  rewrite <- (leibniz_equiv_iff (members db g)), <- size_empty_iff, <- Hcount. unfold messageCount.
  split.
  - by intros ->.
  - unfold fetchMessageCounts.
    intros Hz. rewrite foldl_counts, lookup_empty in Hz. simpl in Hz.
    induction ((λ kv : (uuid * uuid) * message_groups_row, kv.1.2)
                 <$> map_to_list (message_groups db)) as [| x l IH] using rev_ind;
      [done |].
    rewrite filter_app, length_app in Hz. rewrite foldl_app. simpl.
    destruct (decide (x = g)) as [->|Hne].
    + rewrite filter_cons_True in Hz by done. simpl in Hz. lia.
    + rewrite lookup_insert_ne by done. apply IH.
      rewrite filter_cons_False in Hz by done. simpl in Hz. lia.
Qed.

(** X3: the list the hook loads holds every group of the store once, with
    its row, newest first. *)
Theorem fetchIssueGroups_newest_first db :
  StronglySorted created_desc (fetchIssueGroups db).1
  ∧ (∀ g, g ∈ (fetchIssueGroups db).1 ↔ issue_groups db !! ig_id g = Some (ig_row g))
  ∧ NoDup (ig_id <$> (fetchIssueGroups db).1)
  ∧ length (fetchIssueGroups db).1 = size (issue_groups db).
Proof.
  simpl. pose proof (merge_sort_Permutation created_desc (select_issue_groups db)) as Hp.
  split; [apply StronglySorted_merge_sort; apply _ |]. split; [| split].
  - intros g. rewrite Hp. apply elem_of_select_issue_groups.
  - rewrite Hp, select_issue_groups_ids. apply NoDup_fst_map_to_list.
  - rewrite Hp. unfold select_issue_groups.
    rewrite length_fmap. apply length_map_to_list.
Qed.

(** ** The dashboard's filters and counts *)

Lemma List_filter_id_on {A} (f : A → bool) l :
  (∀ x, x ∈ l → f x = true) → List.filter f l = l.
Proof.
  induction l as [| x l IH]; intros Hf; simpl; [done |].
  rewrite (Hf x) by by left. f_equal. apply IH. intros y Hy. apply Hf. by right.
Qed.

Lemma List_filter_sublist_mono {A} (f : A → bool) l1 l2 :
  l1 `sublist_of` l2 → List.filter f l1 `sublist_of` List.filter f l2.
Proof.
  induction 1 as [| x l1 l2 Hsub IH | x l1 l2 Hsub IH]; simpl.
  - constructor.
  - destruct (f x); [by constructor | done].
  - destruct (f x); [by constructor | done].
Qed.

Lemma List_filter_weaken {A} (f g : A → bool) l :
  (∀ x, f x = true → g x = true) → List.filter f l `sublist_of` List.filter g l.
Proof.
  intros Hfg. induction l as [| x l IH]; simpl; [constructor |].
  destruct (f x) eqn:Hf.
  - rewrite (Hfg x Hf). by constructor.
  - destruct (g x); [by constructor | done].
Qed.

Lemma List_filter_filter_implies {A} (f g : A → bool) l :
  (∀ x, f x = true → g x = true) →
  List.filter f (List.filter g l) = List.filter f l.
Proof.
  intros Hfg. induction l as [| x l IH]; [done |].
  cbn [List.filter]. destruct (f x) eqn:Hf.
  - rewrite (Hfg x Hf). cbn [List.filter]. rewrite Hf. by f_equal.
  - destruct (g x); [| exact IH]. cbn [List.filter]. by rewrite Hf.
Qed.

(** The cut-off dates of the time filters, none for "all". *)
Lemma getTimeFilterDate_order now :
  getTimeFilterDate now time_all = None
  ∧ ∃ d1 d7 d30,
      getTimeFilterDate now time_24h = Some d1
      ∧ getTimeFilterDate now time_7d = Some d7
      ∧ getTimeFilterDate now time_30d = Some d30
      ∧ d30 < d7 < d1 ∧ d1 < now.
Proof. split; [done |]. simpl. do 3 eexists. repeat split; lia. Qed.

Lemma filterIssueGroups_narrows_sublist (JS : JsRuntime) now groups c t q :
  filterIssueGroups now groups c t q `sublist_of` groups.
Proof.
  unfold filterIssueGroups.
  etrans; [apply List_filter_sublist |].
  etrans; [apply List_filter_sublist |]. apply List_filter_sublist.
Qed.

(** X4: the filter only ever drops cards: what it returns is a sublist of
    its input (same order, nothing added), every card it keeps has the
    selected category unless that is "all", and was created at or after
    the cut-off date of the selected time range. *)
Theorem filterIssueGroups_narrows (JS : JsRuntime) now groups c t q :
  filterIssueGroups now groups c t q `sublist_of` groups
  ∧ ∀ g, g ∈ filterIssueGroups now groups c t q →
         (c = cat_all ∨ g_category (ig_row g) = CategoryFilter_str c)
         ∧ ∀ cutoff, getTimeFilterDate now t = Some cutoff →
                     cutoff ≤ g_created_at (ig_row g).
Proof.
  split; [apply filterIssueGroups_narrows_sublist |].
  unfold filterIssueGroups.
  - intros g [[[_ Hc]%elem_of_List_filter Ht]%elem_of_List_filter _]%elem_of_List_filter.
    split.
    + apply orb_prop in Hc as [Hc | Hc]; apply bool_decide_eq_true in Hc; eauto.
    + intros cutoff Hcut. rewrite Hcut in Ht. by apply bool_decide_eq_true in Ht.
Qed.

(** X5: filtering the shown list again with the same settings, at a
    second reading of the clock: with the time range "all" the list stays
    as it is; with any range the second list is part of the first, it is
    what filtering the original list at the second reading gives when the
    clock has not gone back, and a shown group created before the second
    cut-off is no longer in it. *)
Theorem filterIssueGroups_again (JS : JsRuntime) now1 now2 groups c t q :
  let shown := filterIssueGroups now1 groups c t q in
  let again := filterIssueGroups now2 shown c t q in
  (t = time_all → again = shown)
  ∧ again `sublist_of` shown
  ∧ (now1 ≤ now2 → again = filterIssueGroups now2 groups c t q)
  ∧ (∀ cutoff g, getTimeFilterDate now2 t = Some cutoff →
                 g_created_at (ig_row g) < cutoff → g ∉ again).
Proof.
  intros shown again. subst shown again.
  unfold filterIssueGroups.
  set (f1 := λ group : IssueGroup, _ || _).
  set (f2 := λ now (group : IssueGroup), match getTimeFilterDate now t with
                                         | Some timeFilterDate =>
                                             bool_decide (timeFilterDate
                                                          ≤ g_created_at (ig_row group))
                                         | None => true end).
  change (λ group : IssueGroup, match getTimeFilterDate now1 t with
                                | Some timeFilterDate => _ | None => _ end)
    with (f2 now1).
  change (λ group : IssueGroup, match getTimeFilterDate now2 t with
                                | Some timeFilterDate => _ | None => _ end)
    with (f2 now2).
  set (f3 := λ group : IssueGroup, if bool_decide (trim q = "") then _ else _).
  assert (∀ x, x ∈ List.filter f3 (List.filter (f2 now1) (List.filter f1 groups)) →
               f1 x = true ∧ f2 now1 x = true ∧ f3 x = true) as Hall.
  { intros x [[[_ H1]%elem_of_List_filter H2]%elem_of_List_filter H3]%elem_of_List_filter.
    done. }
  assert (∀ l, List.filter f3 (List.filter (f2 now2) (List.filter f1 l))
               = List.filter (λ x, f1 x && f2 now2 x && f3 x) l) as Hfuse.
  { induction l as [| x l IH]; simpl; [done |].
    destruct (f1 x); simpl; [| done].
    destruct (f2 now2 x); simpl; [| done].
    destruct (f3 x); simpl; [by f_equal | done]. }
  assert (∀ l, List.filter f3 (List.filter (f2 now1) (List.filter f1 l))
               = List.filter (λ x, f1 x && f2 now1 x && f3 x) l) as Hfuse1.
  { induction l as [| x l IH]; simpl; [done |].
    destruct (f1 x); simpl; [| done].
    destruct (f2 now1 x); simpl; [| done].
    destruct (f3 x); simpl; [by f_equal | done]. }
  split; [| split; [| split]].
  - intros ->.
    rewrite (List_filter_id_on f1) by (intros x Hx; by apply Hall).
    rewrite (List_filter_id_on (f2 now2)) by done.
    apply List_filter_id_on. intros x Hx. by apply Hall.
  - rewrite Hfuse. apply List_filter_sublist.
  - intros Hle. rewrite !Hfuse, Hfuse1.
    apply List_filter_filter_implies. intros x.
    destruct (f1 x); cbn [andb]; [| done].
    destruct (f3 x); [| by rewrite andb_false_r].
    rewrite !andb_true_r.
    unfold f2. destruct t; simpl; try done;
      intros E%bool_decide_eq_true; apply bool_decide_eq_true; lia.
  - intros cutoff g Hcut Hlt [[_ H2]%elem_of_List_filter _]%elem_of_List_filter.
    unfold f2 in H2. rewrite Hcut in H2. apply bool_decide_eq_true in H2. lia.
Qed.

Lemma filterIssueGroups_again_witness :
  filterIssueGroups (H := ascii_runtime) 86401000 sample_groups cat_all time_24h ""
  = sample_groups
  ∧ filterIssueGroups (H := ascii_runtime) 86401001
      (filterIssueGroups (H := ascii_runtime) 86401000 sample_groups cat_all time_24h "")
      cat_all time_24h ""
    = [ {| ig_id := "g2"; ig_row := sample_group "Bug: login loop" 2000 |} ].
Proof.
  split; [vm_compute; reflexivity |].
  destruct (filterIssueGroups_again ascii_runtime 86401000 86401001 sample_groups
              cat_all time_24h "") as (_ & _ & Hlater & _).
  rewrite Hlater by lia. vm_compute. reflexivity.
Defined.

(** X6: the time ranges nest: with the other settings fixed, the cards of
    the last 24 hours are among those of the last 7 days, these among those
    of the last 30 days, and these among those of "all". *)
Theorem filterIssueGroups_time_ranges_nest (JS : JsRuntime) now groups c q :
  filterIssueGroups now groups c time_24h q
    `sublist_of` filterIssueGroups now groups c time_7d q
  ∧ filterIssueGroups now groups c time_7d q
    `sublist_of` filterIssueGroups now groups c time_30d q
  ∧ filterIssueGroups now groups c time_30d q
    `sublist_of` filterIssueGroups now groups c time_all q.
Proof.
  unfold filterIssueGroups. simpl.
  repeat split; apply List_filter_sublist_mono, List_filter_weaken;
    intros x Hx; try done;
    apply bool_decide_eq_true in Hx; apply bool_decide_eq_true; lia.
Qed.

(** X7: the inline category filter of the first dashboard is the later
    [filterIssueGroups] with the time range on "all" and an empty search. *)
Theorem filteredGroups_is_filterIssueGroups (JS : JsRuntime) now groups c :
  filteredGroups c groups = filterIssueGroups now groups c time_all "".
Proof.
  unfold filteredGroups, filterIssueGroups. simpl.
  rewrite !(List_filter_id_on (λ _, true)) by done.
  destruct (decide (c = cat_all)) as [->|Hc].
  - simpl. by rewrite List_filter_id_on.
  - rewrite !bool_decide_eq_false_2 by done. done.
Qed.

Lemma categoryCount_partition groups :
  (∀ g, g ∈ groups → check_category (g_category (ig_row g)) = true) →
  (categoryCount groups "support" + categoryCount groups "bug"
   + categoryCount groups "feature" + categoryCount groups "question")%nat
  = length groups.
Proof.
  unfold categoryCount. induction groups as [| g groups IH]; intros Hall; [done |].
  simpl. specialize (IH (λ x Hx, Hall x (list_elem_of_further _ _ _ Hx))).
  pose proof (Hall g (list_elem_of_here _ _)) as Hg.
  unfold check_category in Hg. apply bool_decide_eq_true in Hg.
  rewrite !elem_of_cons, elem_of_nil in Hg.
  destruct Hg as [-> | [-> | [-> | [-> | []]]]]; simpl; lia.
Qed.

(** X8: when every group has one of the four categories the schema admits,
    the counts on the four category buttons add up to the number of groups,
    and the count on a button is the number of cards its filter shows. *)
Theorem category_counts_add_up groups :
  (∀ g, g ∈ groups → check_category (g_category (ig_row g)) = true) →
  (categoryCount groups "support" + categoryCount groups "bug"
   + categoryCount groups "feature" + categoryCount groups "question")%nat
  = length groups
  ∧ ∀ c, c ≠ cat_all →
         categoryCount groups (CategoryFilter_str c) = length (filteredGroups c groups).
Proof.
  intros Hall. split; [by apply categoryCount_partition |].
  intros c Hc. unfold categoryCount, filteredGroups.
  by rewrite bool_decide_eq_false_2.
Qed.

Lemma category_counts_add_up_witness :
  (categoryCount sample_groups "support" + categoryCount sample_groups "bug"
   + categoryCount sample_groups "feature" + categoryCount sample_groups "question")%nat
  = length sample_groups.
Proof.
  apply (category_counts_add_up sample_groups).
  intros g Hg. apply list_elem_of_In in Hg. simpl in Hg.
  destruct Hg as [<- | [<- | []]]; vm_compute; reflexivity.
Defined.

(** X9: the cards are shown newest first: the filter keeps the order in
    which the hook loaded the groups. *)
Theorem shown_cards_newest_first (JS : JsRuntime) now db c t q :
  StronglySorted created_desc (filterIssueGroups now (fetchIssueGroups db).1 c t q).
Proof.
  eapply StronglySorted_sublist.
  - apply (filterIssueGroups_narrows_sublist JS).
  - simpl. apply StronglySorted_merge_sort; apply _.
Qed.

(** ** The merge dialog *)

Lemma elem_of_handleOpenMergeModal modal db g :
  g ∈ handleOpenMergeModal modal db →
  ig_id g ≠ ig_id (selectedGroup modal)
  ∧ g_status (ig_row g) = "open"
  ∧ issue_groups db !! ig_id g = Some (ig_row g).
Proof.
  unfold handleOpenMergeModal. intros Hin.
  pose proof (elem_of_sublist _ _ _ Hin (sublist_take _ _)) as Hin'.
  clear Hin. rewrite merge_sort_Permutation in Hin'.
  apply list_elem_of_filter in Hin' as [[Hne Hopen] Hin].
  split; [done |]. split; [done |].
  by apply (elem_of_select_issue_groups db g).
Qed.

Lemma find_elem_of {A} (f : A → bool) l x :
  List.find f l = Some x → x ∈ l ∧ f x = true.
Proof. intros H. apply find_some in H as [H1 H2]. by rewrite list_elem_of_In. Qed.

(** X10: the candidates offered for a merge are rows of the store, never
    the selected group itself, all with legacy status "open", at most 20,
    newest first and without repetition; when the store has at most 20
    groups, every other open group is offered. *)
Theorem handleOpenMergeModal_lists_open_others modal db :
  (∀ g, g ∈ handleOpenMergeModal modal db →
        ig_id g ≠ ig_id (selectedGroup modal)
        ∧ g_status (ig_row g) = "open"
        ∧ issue_groups db !! ig_id g = Some (ig_row g))
  ∧ (length (handleOpenMergeModal modal db) ≤ 20)%nat
  ∧ StronglySorted created_desc (handleOpenMergeModal modal db)
  ∧ NoDup (ig_id <$> handleOpenMergeModal modal db)
  ∧ ((size (issue_groups db) ≤ 20)%nat →
     ∀ g, issue_groups db !! ig_id g = Some (ig_row g) →
          ig_id g ≠ ig_id (selectedGroup modal) →
          g_status (ig_row g) = "open" →
          g ∈ handleOpenMergeModal modal db).
Proof.
  split; [apply elem_of_handleOpenMergeModal |].
  unfold handleOpenMergeModal.
  set (candidates := filter _ _).
  assert (candidates `sublist_of` select_issue_groups db) as Hsub
    by apply sublist_filter.
  split; [rewrite length_take; lia |]. split; [| split].
  - eapply StronglySorted_sublist; [apply sublist_take |].
    apply StronglySorted_merge_sort; apply _.
  - eapply sublist_NoDup; [| apply fmap_sublist, sublist_take].
    rewrite merge_sort_Permutation.
    eapply sublist_NoDup; [| apply fmap_sublist, Hsub].
    rewrite select_issue_groups_ids. apply NoDup_fst_map_to_list.
  - intros Hsize g Hrow Hne Hopen.
    rewrite take_ge.
    + rewrite merge_sort_Permutation. apply list_elem_of_filter. split; [done |].
      by apply elem_of_select_issue_groups.
    + rewrite merge_sort_Permutation.
      etrans; [apply sublist_length, Hsub |].
      unfold select_issue_groups. rewrite length_fmap, length_map_to_list. done.
Qed.

(** X11: from a freshly opened dialog a merge sends requests only when it
    was confirmed and the target is a group of the store other than the
    selected one whose legacy status is "open"; a group is never merged
    into itself or into a group that is not open. *)
Theorem merge_needs_listed_open_target db source confirm target :
  handleMergeIntoGroup_requests (open_modal db source) confirm target ≠ [] →
  confirm = true
  ∧ target ≠ ig_id source
  ∧ ∃ row, issue_groups db !! target = Some row ∧ g_status row = "open".
Proof.
  unfold handleMergeIntoGroup_requests. simpl.
  destruct (List.find _ _) as [tg|] eqn:Hfind; [| done].
  destruct confirm; [| done]. intros _.
  apply find_elem_of in Hfind as [Hin Hid]. apply bool_decide_eq_true in Hid.
  apply elem_of_handleOpenMergeModal in Hin as (Hne & Hopen & Hrow).
  simpl in Hne. subst target. split; [done |]. split; [done |]. eauto.
Qed.

Lemma merge_needs_listed_open_target_witness :
  true = true
  ∧ "gB" ≠ ig_id group_A
  ∧ ∃ row, issue_groups db_A3_B2 !! "gB" = Some row ∧ g_status row = "open".
Proof.
  apply (merge_needs_listed_open_target db_A3_B2 group_A true "gB").
  vm_compute. discriminate.
Defined.

(** X12: a confirmed merge into a listed, existing target from any loaded
    message list (current or not): afterwards a message is linked to a
    group exactly when the group is not the source and either the link was
    there before or the group is the target and the message was in the
    list.  So a member of the source that was not in the list loses its
    link with the deleted source, and a listed message that had meanwhile
    been moved to a third group ends up in two groups. *)
Theorem merge_with_any_loaded_list env modal target db :
  references_ok db →
  ig_id (selectedGroup modal) ≠ target →
  is_Some (issue_groups db !! target) →
  (∀ msg, msg ∈ groupMessages modal → is_Some (messages db !! msg_id msg)) →
  is_Some (List.find (λ g, bool_decide (ig_id g = target)) (availableGroups modal)) →
  let source := ig_id (selectedGroup modal) in
  let db' := handleMergeIntoGroup env modal true target db in
  (∀ x g, linked db' x g ↔
          g ≠ source
          ∧ (linked db x g ∨ (g = target ∧ x ∈ msg_id <$> groupMessages modal)))
  ∧ issue_groups db' = delete source (issue_groups db)
  ∧ (∀ x, x ∉ msg_id <$> groupMessages modal →
          groups_of db x = {[ source ]} → groups_of db' x = ∅)
  ∧ (∀ x g, x ∈ msg_id <$> groupMessages modal →
            linked db x g → g ≠ source → g ≠ target → ¬ exclusive db').
Proof.
  intros Hok Hne Htgt Hmsgs [tg Hfind] source db'.
  assert (messages db' = messages db
          ∧ issue_groups db' = delete source (issue_groups db)
          ∧ ∀ x g, linked db' x g ↔
                   g ≠ source
                   ∧ (linked db x g
                      ∨ (g = target ∧ x ∈ msg_id <$> groupMessages modal)))
    as (Hm & Hg & Hl).
  { subst db'.
    unfold handleMergeIntoGroup, handleMergeIntoGroup_requests, merge_requests.
    rewrite Hfind, run_app. fold source.
    destruct (merge_loop_links env source target (groupMessages modal) db Hne Hmsgs Htgt)
      as (Hm & Hg & Hl).
    set (db1 := run env (groupMessages modal ≫= merge_move source target) db) in *.
    change (run env [DeleteIssueGroup source] db1)
      with (exec env (DeleteIssueGroup source) db1).1.
    destruct (delete_group_links env source db1) as (Hm' & Hg' & Hl').
    split; [congruence |]. split; [congruence |]. intros x g.
    rewrite Hl', Hl. tauto. }
  split; [done |]. split; [done |]. split.
  - intros x Hnot Hgroups. apply set_eq. intros g.
    rewrite elem_of_groups_of, elem_of_empty, Hl.
    rewrite <- (elem_of_groups_of db x g), Hgroups, elem_of_singleton. tauto.
  - intros x g Hin Hlinked Hgs Hgt Hex.
    apply Hgt. apply (Hex x); apply elem_of_groups_of, Hl.
    + split; [done |]. by left.
    + split; [intros Heq; apply Hne; by symmetry | by right].
Qed.

Lemma merge_with_any_loaded_list_witness :
  issue_groups (handleMergeIntoGroup sample_env (open_modal db_A3_B2 group_A)
                  true "gB" db_A3_B2)
  = delete "gA" (issue_groups db_A3_B2).
Proof.
  destruct (merge_with_any_loaded_list sample_env (open_modal db_A3_B2 group_A)
              "gB" db_A3_B2) as (_ & Hg & _).
  - apply references_okb_correct. vm_compute. reflexivity.
  - vm_compute. discriminate.
  - vm_compute. eauto.
  - intros msg Hin. unfold open_modal, groupMessages in Hin.
    apply (elem_of_fetchGroupMessages db_A3_B2 (ig_id group_A)) in Hin as (_ & Hr & _).
    eauto.
  - vm_compute. eauto.
  - exact Hg.
Defined.

(** ** What the store keeps *)

Lemma checks_okb_correct db : checks_okb db = true → checks_ok db.
Proof. intros H%bool_decide_eq_true gid r Hr. exact (H gid r Hr). Qed.

Lemma exec_messages env req db : messages (exec env req db).1 = messages db.
Proof.
  destruct req as [t s c st | gid patch | gid | mid gid sc | mid gid]; simpl;
    repeat (match goal with |- context [match ?x with _ => _ end] => destruct x end);
    done.
Qed.

Lemma exec_checks_ok env req db : checks_ok db → checks_ok (exec env req db).1.
Proof.
  intros Hok. destruct req as [t s c st | gid patch | gid | mid gid sc | mid gid]; simpl.
  - destruct (negb _) eqn:Hc; [done |].
    destruct (issue_groups db !! gen_random_uuid env) eqn:E; [done |].
    intros g r. simpl.
    destruct (decide (gen_random_uuid env = g)) as [->|Hne].
    + rewrite lookup_insert_eq. intros [= <-]. by apply negb_false_iff in Hc.
    + rewrite lookup_insert_ne by done. apply Hok.
  - destruct (issue_groups db !! gid) as [old|] eqn:E; [| done].
    destruct (negb _) eqn:Hc; [done |].
    intros g r. simpl.
    destruct (decide (gid = g)) as [->|Hne].
    + rewrite lookup_insert_eq. intros [= <-]. by apply negb_false_iff in Hc.
    + rewrite lookup_insert_ne by done. apply Hok.
  - intros g r. simpl. intros [_ Hr]%lookup_delete_Some. by apply (Hok g).
  - repeat (match goal with |- context [match ?x with _ => _ end] => destruct x end);
      done.
  - done.
Qed.

Lemma keeps_invariants_refl db : keeps_invariants db db.
Proof. unfold keeps_invariants. split; [done |]. split; auto. Qed.

Lemma keeps_invariants_trans db1 db2 db3 :
  keeps_invariants db1 db2 → keeps_invariants db2 db3 → keeps_invariants db1 db3.
Proof.
  intros (Hm1 & Hr1 & Hc1) (Hm2 & Hr2 & Hc2). split; [congruence |]. split; auto.
Qed.

Lemma exec_keeps_invariants env req db : keeps_invariants db (exec env req db).1.
Proof.
  split; [apply exec_messages |].
  split; [apply exec_references_ok | apply exec_checks_ok].
Qed.

Lemma run_keeps_invariants env reqs db : keeps_invariants db (run env reqs db).
Proof.
  revert db. induction reqs as [| r rs IH]; intros db; [apply keeps_invariants_refl |].
  eapply keeps_invariants_trans; [apply (exec_keeps_invariants env r) | apply IH].
Qed.

(** X13: no request of the front end, hence no handler, writes the table
    [messages], breaks a foreign key of [message_groups] or leaves a row of
    [issue_groups] that fails a [CHECK]: whatever is refused or dropped on
    the way, split, merge and the edits keep the store well formed. *)
Theorem handlers_keep_store_well_formed (JS : JsRuntime) env modal db :
  (∀ reqs, keeps_invariants db (run env reqs db))
  ∧ (∀ confirm messageId,
       keeps_invariants db (handleSplitMessage env modal confirm messageId db))
  ∧ (∀ confirm target,
       keeps_invariants db (handleMergeIntoGroup env modal confirm target db))
  ∧ (∀ e, keeps_invariants db (apply_edit env modal e db)).
Proof.
  split; [intros; apply run_keeps_invariants |]. split; [| split].
  - intros confirm messageId. unfold handleSplitMessage.
    destruct confirm; simpl negb; cbv iota; [| apply keeps_invariants_refl].
    destruct (List.find _ _) as [message|]; [| apply keeps_invariants_refl].
    pose proof (exec_keeps_invariants env (split_insert message) db) as H1.
    destruct (exec env (split_insert message) db) as [db1 resp]. cbn [fst] in H1.
    destruct resp as [[newId|]|e]; try exact H1;
      (eapply keeps_invariants_trans; [exact H1 | apply run_keeps_invariants]).
  - intros confirm target. apply run_keeps_invariants.
  - intros [| p | ws | s]; simpl; try apply run_keeps_invariants.
    unfold toggleGroupStatus.
    pose proof (exec_keeps_invariants env
                  (toggleGroupStatus_request (ig_id (selectedGroup modal)) s) db) as H1.
    by destruct (exec env _ db) as [db' [r|e]].
Qed.

(** X14: a request that names a row which is not there is not an error:
    an update of a missing group, a delete of a missing link and (on a
    store with valid foreign keys) a delete of a missing group all succeed
    and leave the store as it is. *)
Theorem requests_on_missing_rows env db :
  (∀ gid patch, issue_groups db !! gid = None →
                exec env (UpdateIssueGroup gid patch) db = (db, Success None))
  ∧ (∀ mid gid, message_groups db !! (mid, gid) = None →
                exec env (DeleteMessageGroup mid gid) db = (db, Success None))
  ∧ (∀ gid, references_ok db → issue_groups db !! gid = None →
            exec env (DeleteIssueGroup gid) db = (db, Success None)).
Proof.
  split; [| split].
  - intros gid patch H. simpl. by rewrite H.
  - intros mid gid H. simpl. rewrite delete_id by done. by destruct db.
  - intros gid Hok H. simpl. rewrite delete_id by done.
    rewrite map_filter_id; [by destruct db |].
    intros [mid g] r Hr. simpl. intros ->.
    destruct (Hok mid gid (mk_is_Some _ _ Hr)) as [_ [grp Hgrp]]. congruence.
Qed.

(** X15: deleting a group takes exactly its links with it: the group has no
    members afterwards, every other group keeps its members, and a message
    that was linked to the deleted group only is then in no group at all
    (its row in [messages] stays). *)
Theorem delete_group_cascades env gid db :
  let db' := (exec env (DeleteIssueGroup gid) db).1 in
  issue_groups db' !! gid = None
  ∧ members db' gid = ∅
  ∧ (∀ g, g ≠ gid → members db' g = members db g
                    ∧ issue_groups db' !! g = issue_groups db !! g)
  ∧ (∀ x, groups_of db x = {[ gid ]} →
          groups_of db' x = ∅ ∧ messages db' !! x = messages db !! x).
Proof.
  intros db'. destruct (delete_group_links env gid db) as (Hm & Hg & Hl).
  fold db' in Hm, Hg, Hl.
  split; [rewrite Hg; apply lookup_delete_eq |]. split; [| split].
  - apply set_eq. intros x. rewrite elem_of_members, elem_of_empty, Hl. tauto.
  - intros g Hne. split.
    + apply set_eq. intros x. rewrite !elem_of_members, Hl. tauto.
    + rewrite Hg. by apply lookup_delete_ne.
  - intros x Hx. split; [| by rewrite Hm].
    apply set_eq. intros g.
    rewrite elem_of_groups_of, elem_of_empty, Hl.
    rewrite <- (elem_of_groups_of db x g), Hx, elem_of_singleton. tauto.
Qed.

(** ** Split: refusals and what it keeps *)

(** X16: a split that is declined, or names a message that is not in the
    loaded list, or whose message has a category the schema does not admit
    for groups (such as "irrelevant"), or whose generated id is taken,
    leaves the store exactly as it was: the link is only touched after the
    new group has been inserted. *)
Theorem handleSplitMessage_refused (JS : JsRuntime) env modal confirm messageId db :
  confirm = false
  ∨ List.find (λ m, bool_decide (msg_id m = messageId)) (groupMessages modal) = None
  ∨ (∃ message,
       List.find (λ m, bool_decide (msg_id m = messageId)) (groupMessages modal)
       = Some message
       ∧ (check_category (m_category (msg_row message)) = false
          ∨ is_Some (issue_groups db !! gen_random_uuid env))) →
  handleSplitMessage env modal confirm messageId db = db.
Proof.
  unfold handleSplitMessage.
  intros [-> | [Hnone | (message & Hfind & Hbad)]]; [done | |].
  - destruct confirm; [| done]. simpl. by rewrite Hnone.
  - destruct confirm; [| done]. simpl. rewrite Hfind.
    unfold split_insert. simpl. unfold issue_groups_checks. simpl.
    destruct Hbad as [Hcat | [grp Hgrp]].
    + by rewrite Hcat.
    + destruct (negb _); [done |]. by rewrite Hgrp.
Qed.

Lemma handleSplitMessage_refused_witness :
  handleSplitMessage (H := ascii_runtime) sample_env (open_modal db_X2 group_X)
    true "m9" db_X2 = db_X2.
Proof.
  apply (handleSplitMessage_refused ascii_runtime sample_env
           (open_modal db_X2 group_X) true "m9" db_X2).
  right. left. vm_compute. reflexivity.
Defined.

Lemma handleSplitMessage_store (JS : JsRuntime) env modal messageId message db :
  references_ok db →
  List.find (λ m, bool_decide (msg_id m = messageId)) (groupMessages modal)
  = Some message →
  check_category (m_category (msg_row message)) = true →
  issue_groups db !! gen_random_uuid env = None →
  is_Some (messages db !! messageId) →
  handleSplitMessage env modal true messageId db
  = {| messages := messages db;
       issue_groups :=
         <[gen_random_uuid env := split_row JS env message]> (issue_groups db);
       message_groups :=
         <[(messageId, gen_random_uuid env) :=
             {| mg_similarity_score := Some 1%float; mg_created_at := NOW env |}]>
           (delete (messageId, ig_id (selectedGroup modal)) (message_groups db)) |}.
Proof.
  intros Hok Hfind Hcat Hfresh [mrow Hm].
  assert (∀ x, message_groups db !! (x, gen_random_uuid env) = None) as Hnolink.
  { intros x. destruct (message_groups db !! (x, gen_random_uuid env)) as [r|] eqn:E;
      [| done].
    destruct (Hok x _ (mk_is_Some _ _ E)) as [_ [grp Hgrp]]. congruence. }
  unfold handleSplitMessage. simpl. rewrite Hfind.
  unfold split_insert. simpl.
  unfold issue_groups_checks. simpl. rewrite Hcat. simpl.
  rewrite Hfresh. unfold run. simpl.
  rewrite Hm, lookup_insert_eq.
  assert (delete (messageId, ig_id (selectedGroup modal)) (message_groups db)
            !! (messageId, gen_random_uuid env) = None) as ->; [| done].
  apply lookup_delete_None. right. apply Hnolink.
Qed.

(** X17: a split of a message that is linked to the selected group, on a
    store where every message is in at most one group, keeps it so: the
    message is then in the new group only, the number of links is the same
    and there is one group more. *)
Theorem split_keeps_exclusivity (JS : JsRuntime) env modal messageId message db :
  references_ok db →
  exclusive db →
  List.find (λ m, bool_decide (msg_id m = messageId)) (groupMessages modal)
  = Some message →
  check_category (m_category (msg_row message)) = true →
  issue_groups db !! gen_random_uuid env = None →
  is_Some (messages db !! messageId) →
  linked db messageId (ig_id (selectedGroup modal)) →
  let db' := handleSplitMessage env modal true messageId db in
  exclusive db'
  ∧ groups_of db' messageId = {[ gen_random_uuid env ]}
  ∧ size (message_groups db') = size (message_groups db)
  ∧ size (issue_groups db') = S (size (issue_groups db)).
Proof.
  intros Hok Hex Hfind Hcat Hfresh Hm Hlinked db'. subst db'.
  rewrite (handleSplitMessage_store JS env modal messageId message db) by done.
  set (source := ig_id (selectedGroup modal)) in *.
  set (new := gen_random_uuid env) in *.
  assert (∀ x g,
            is_Some ((<[(messageId, new) :=
                          {| mg_similarity_score := Some 1%float;
                             mg_created_at := NOW env |}]>
                        (delete (messageId, source) (message_groups db))) !! (x, g))
            ↔ (x = messageId ∧ g = new) ∨ (x ≠ messageId ∧ linked db x g)) as Hl.
  { intros x g. destruct (decide ((messageId, new) = (x, g))) as [[= <- <-]|Hne].
    - rewrite lookup_insert_eq. split; [eauto | eauto].
    - rewrite lookup_insert_ne by done.
      destruct (decide ((messageId, source) = (x, g))) as [[= <- <-]|Hne'].
      + rewrite lookup_delete_eq. split; [by intros [? ?] |].
        intros [[_ ->] | [? _]]; done.
      + rewrite lookup_delete_ne by done. unfold linked. split.
        * intros H. right. split; [| done]. intros ->.
          apply Hne'. f_equal. apply (Hex messageId); by apply elem_of_groups_of.
        * intros [[-> ->] | [_ H]]; done. }
  split; [| split; [| split]].
  - intros x g1 g2 H1%elem_of_groups_of H2%elem_of_groups_of.
    unfold linked in H1, H2. simpl in H1, H2.
    apply Hl in H1 as [[-> ->] | [Hx H1]], H2 as [[Hx2 ->] | [Hx2 H2]]; try done.
    apply (Hex x); by apply elem_of_groups_of.
  - apply set_eq. intros g. rewrite elem_of_groups_of, elem_of_singleton.
    unfold linked. simpl. rewrite Hl. split; [by intros [[_ ->] | [? _]] | eauto].
  - simpl. destruct Hlinked as [r Hr].
    assert (message_groups db !! (messageId, new) = None) as Hnolink.
    { destruct (message_groups db !! (messageId, new)) as [r'|] eqn:E; [| done].
      destruct (Hok messageId new (mk_is_Some _ _ E)) as [_ [grp Hgrp]].
      subst new. congruence. }
    rewrite map_size_insert_None by (apply lookup_delete_None; by right).
    rewrite map_size_delete_Some by eauto.
    assert (size (message_groups db) ≠ 0%nat) as Hpos.
    { apply map_size_ne_0_lookup. eauto. }
    revert Hpos. generalize (size (message_groups db)). intros n Hn. lia.
  - simpl. by apply map_size_insert_None.
Qed.

Lemma split_keeps_exclusivity_witness :
  exclusive (handleSplitMessage (H := ascii_runtime) sample_env
               (open_modal db_X2 group_X) true "m2" db_X2).
Proof.
  destruct (split_keeps_exclusivity ascii_runtime sample_env
              (open_modal db_X2 group_X) "m2"
              {| msg_id := "m2"; msg_row := sample_message;
                 msg_similarity_score := None |} db_X2) as (Hex & _).
  - apply references_okb_correct. vm_compute. reflexivity.
  - apply exclusiveb_correct. vm_compute. reflexivity.
  - vm_compute. reflexivity.
  - vm_compute. reflexivity.
  - vm_compute. reflexivity.
  - vm_compute. eauto.
  - unfold linked. vm_compute. eauto.
  - exact Hex.
Defined.

(** ** The status toggle on the dashboard *)

(** X18: the hook's list of groups stays in step with the store on the
    legacy status: when every listed group shows its stored status before
    a toggle, the same holds after it, whether the update was applied,
    refused or matched no row. *)
Theorem toggleGroupStatus_keeps_list_in_step env groupId currentStatus db issueGroups :
  (∀ g, g ∈ issueGroups → stored_status db (ig_id g) = Some (g_status (ig_row g))) →
  ∀ g, g ∈ (toggleGroupStatus env groupId currentStatus db issueGroups).2 →
       stored_status (toggleGroupStatus env groupId currentStatus db issueGroups).1
                     (ig_id g)
       = Some (g_status (ig_row g)).
Proof.
  intros Hsync g. unfold toggleGroupStatus, toggleGroupStatus_request, stored_status.
  cbn [exec].
  destruct (issue_groups db !! groupId) as [old|] eqn:E.
  - cbn [foldr reverse rev_append].
    destruct (negb _) eqn:Hc; cbn [fst snd]; [apply Hsync |].
    intros [g0 [-> Hin]]%list_elem_of_fmap. cbn [issue_groups].
    destruct (decide (ig_id g0 = groupId)) as [<-|Hne]; cbn [ig_id ig_row].
    + by rewrite lookup_insert_eq.
    + rewrite lookup_insert_ne by done. by apply Hsync.
  - cbn [fst snd]. intros [g0 [-> Hin]]%list_elem_of_fmap.
    destruct (decide (ig_id g0 = groupId)) as [<-|Hne]; cbn [ig_id ig_row].
    + specialize (Hsync g0 Hin). unfold stored_status in Hsync.
      rewrite E in Hsync. discriminate Hsync.
    + by apply Hsync.
Qed.

Lemma toggleGroupStatus_keeps_list_in_step_witness :
  stored_status (toggleGroupStatus sample_env "g1" "closed" db_one_link
                   sample_groups).1 "g1"
  = Some "open".
Proof.
  apply (toggleGroupStatus_keeps_list_in_step sample_env "g1" "closed"
           db_one_link sample_groups)
    with (g := {| ig_id := "g1";
                  ig_row := set_column (SetStatus "open") (ig_row group_1) |}).
  - intros g Hg. apply list_elem_of_In in Hg. simpl in Hg.
    destruct Hg as [<- | [<- | []]]; vm_compute; reflexivity.
  - vm_compute. apply list_elem_of_In. simpl. tauto.
Defined.

(** What the clicks on the status button keep: the dialog shows group
    [gid], whose stored row passes the checks and has status "open"; [b]
    tells whether the dialog shows "open" or "resolved". *)
Lemma click_step env gid db d (b : bool) :
  (∃ selected row,
     selectedGroup_state d = Some selected ∧ ig_id selected = gid
     ∧ issue_groups db !! gid = Some row
     ∧ issue_groups_checks row = true ∧ g_status row = "open"
     ∧ g_status (ig_row selected) = if b then "open" else "resolved") →
  ∃ selected row,
    selectedGroup_state (clickToggleStatus env (db, d)).2 = Some selected
    ∧ ig_id selected = gid
    ∧ issue_groups (clickToggleStatus env (db, d)).1 !! gid = Some row
    ∧ issue_groups_checks row = true ∧ g_status row = "open"
    ∧ g_status (ig_row selected) = if negb b then "open" else "resolved".
Proof.
  intros (selected & row & Hsel & Hid & Hrow & Hchk & Hopen & Hshown).
  unfold clickToggleStatus. cbn [fst snd]. rewrite Hsel.
  unfold handleToggleStatus, toggleGroupStatus, toggleGroupStatus_request.
  rewrite Hsel, Hid, Hshown. cbn [exec]. rewrite Hrow.
  cbn [foldr reverse rev_append].
  destruct (decide (gid = gid)) as [_|]; [| done].
  unfold toggleGroupStatus_newStatus.
  destruct b; cbn [negb].
  - (* shown "open": the update to "resolved" is refused *)
    destruct (decide ("open" = "open")) as [_|]; [| done].
    assert (issue_groups_checks
              (update_updated_at_column (NOW env)
                 (set_column (SetStatus "resolved") row)) = false) as ->.
    { unfold issue_groups_checks. simpl. by rewrite !andb_false_r. }
    cbn [negb fst snd selectedGroup_state].
    eexists _, row. by repeat split.
  - (* shown "resolved": the update to "open" is applied *)
    destruct (decide ("resolved" = "open")) as [|_]; [done |].
    assert (issue_groups_checks
              (update_updated_at_column (NOW env)
                 (set_column (SetStatus "open") row)) = true) as Hnew.
    { unfold issue_groups_checks in *. simpl. by rewrite Hopen in Hchk. }
    rewrite Hnew. cbn [negb fst snd issue_groups selectedGroup_state].
    eexists _, _. rewrite lookup_insert_eq. by repeat split.
Qed.

(** X19: on a group whose stored status is "open", clicking the status
    button of the dialog any number of times never changes the stored
    status (the update to "resolved" is refused by the [CHECK], the update
    back to "open" is applied), while the status the dialog shows flips
    with every click, since it is set without looking at the outcome. *)
Theorem status_button_flips_only_the_dialog envs db d selected row :
  selectedGroup_state d = Some selected →
  issue_groups db !! ig_id selected = Some row →
  issue_groups_checks row = true →
  g_status row = "open" →
  g_status (ig_row selected) = "open" →
  stored_status (foldl (λ st env, clickToggleStatus env st) (db, d) envs).1
                (ig_id selected) = Some "open"
  ∧ shown_status (foldl (λ st env, clickToggleStatus env st) (db, d) envs).2
    = Some (if Nat.even (length envs) then "open" else "resolved").
Proof.
  intros Hsel Hrow Hchk Hopen Hshown.
  assert (∀ envs st (b : bool),
            (∃ selected' row',
               selectedGroup_state st.2 = Some selected'
               ∧ ig_id selected' = ig_id selected
               ∧ issue_groups st.1 !! ig_id selected = Some row'
               ∧ issue_groups_checks row' = true ∧ g_status row' = "open"
               ∧ g_status (ig_row selected') = if b then "open" else "resolved") →
            ∃ selected' row',
              selectedGroup_state
                (foldl (λ st env, clickToggleStatus env st) st envs).2 = Some selected'
              ∧ issue_groups
                  (foldl (λ st env, clickToggleStatus env st) st envs).1
                  !! ig_id selected = Some row'
              ∧ g_status row' = "open"
              ∧ g_status (ig_row selected')
                = if xorb b (Nat.odd (length envs)) then "open" else "resolved")
    as Hloop.
  { clear. intros envs. induction envs as [| env envs IH]; intros st b Hinv.
    - destruct Hinv as (s' & r' & ? & ? & ? & ? & ? & ?). simpl.
      exists s', r'. rewrite xorb_false_r. done.
    - simpl foldl. destruct st as [db d].
      apply (click_step env) in Hinv.
      destruct (IH (clickToggleStatus env (db, d)) (negb b) Hinv)
        as (s' & r' & ? & ? & ? & Hs).
      exists s', r'. repeat split; try done.
      rewrite Hs. cbn [length]. rewrite Nat.odd_succ, <- Nat.negb_odd.
      by destruct b, (Nat.odd (length envs)). }
  destruct (Hloop envs (db, d) true) as (s' & r' & Hs' & Hr' & Ho' & Hsh').
  { exists selected, row. by repeat split. }
  unfold stored_status, shown_status. rewrite Hr', Hs'. simpl. rewrite Ho', Hsh'.
  split; [done |]. rewrite <- Nat.negb_odd. by destruct (Nat.odd (length envs)).
Qed.

Lemma status_button_flips_only_the_dialog_witness :
  stored_status
    (foldl (λ st env, clickToggleStatus env st)
       (db_one_link, {| issueGroups := sample_groups;
                        selectedGroup_state := Some group_1 |})
       [sample_env; sample_env; sample_env]).1 (ig_id group_1) = Some "open"
  ∧ shown_status
      (foldl (λ st env, clickToggleStatus env st)
         (db_one_link, {| issueGroups := sample_groups;
                          selectedGroup_state := Some group_1 |})
         [sample_env; sample_env; sample_env]).2
    = Some "resolved".
Proof.
  apply (status_button_flips_only_the_dialog [sample_env; sample_env; sample_env]
           db_one_link {| issueGroups := sample_groups;
                          selectedGroup_state := Some group_1 |}
           group_1 (ig_row group_1)).
  - reflexivity.
  - vm_compute. reflexivity.
  - vm_compute. reflexivity.
  - reflexivity.
  - reflexivity.
Defined.

(** ** Saving a title *)

Lemma string_app_cons x (a b : string) : String x a +:+ b = String x (a +:+ b).
Proof. reflexivity. Qed.

Lemma string_app_assoc (a b c : string) : (a +:+ b) +:+ c = a +:+ (b +:+ c).
Proof.
  induction a as [| x a IH]; [done |]. rewrite !string_app_cons. by f_equal.
Qed.

Lemma rev_app_spec (a c : string) : String.rev_app a c = String.rev a +:+ c.
Proof.
  unfold String.rev. revert c. induction a as [| x a IH]; intros c; [done |].
  cbn [String.rev_app].
  rewrite (IH (String x c)), (IH (String x "")), string_app_assoc. done.
Qed.

Lemma rev_app_app (a b c : string) :
  String.rev_app (a +:+ b) c = String.rev_app b (String.rev_app a c).
Proof.
  revert c. induction a as [| x a IH]; intros c; [done |].
  rewrite string_app_cons. cbn [String.rev_app]. apply IH.
Qed.

Lemma string_rev_app_distr (a b : string) :
  String.rev (a +:+ b) = String.rev b +:+ String.rev a.
Proof. unfold String.rev at 1. by rewrite rev_app_app, rev_app_spec. Qed.

Lemma string_rev_involutive (a : string) : String.rev (String.rev a) = a.
Proof.
  induction a as [| x a IH]; [done |].
  change (String.rev (String x a)) with (String.rev_app a (String x "")).
  rewrite rev_app_spec, string_rev_app_distr, IH. done.
Qed.

Lemma trimStart_starts s : starts_with_whitespace (trimStart s) = false.
Proof.
  induction s as [| c s IH]; simpl; [done |].
  destruct (is_whitespace c) eqn:E; [done | simpl; by rewrite E].
Qed.

Lemma trimStart_id s : starts_with_whitespace s = false → trimStart s = s.
Proof. destruct s as [| c s]; simpl; [done |]. by intros ->. Qed.

Lemma trimStart_suffix s : ∃ p, s = p +:+ trimStart s.
Proof.
  induction s as [| c s [p IH]]; simpl; [by exists "" |].
  destruct (is_whitespace c).
  - exists (String c p). rewrite string_app_cons. by rewrite <- IH.
  - by exists "".
Qed.

Lemma trimEnd_prefix t : ∃ w, t = trimEnd t +:+ w.
Proof.
  destruct (trimStart_suffix (String.rev t)) as [p Hp].
  exists (String.rev p). unfold trimEnd.
  rewrite <- string_rev_app_distr, <- Hp. by rewrite string_rev_involutive.
Qed.

Lemma trimEnd_starts t :
  starts_with_whitespace t = false → starts_with_whitespace (trimEnd t) = false.
Proof.
  intros Ht. destruct (trimEnd_prefix t) as [w Hw].
  destruct (trimEnd t) as [| c r]; [done |].
  rewrite Hw in Ht. exact Ht.
Qed.

Lemma trimEnd_ends t : ends_with_whitespace (trimEnd t) = false.
Proof.
  unfold ends_with_whitespace, trimEnd.
  rewrite string_rev_involutive. apply trimStart_starts.
Qed.

Lemma trim_normal s :
  starts_with_whitespace (trim s) = false
  ∧ ends_with_whitespace (trim s) = false
  ∧ trim (trim s) = trim s.
Proof.
  assert (starts_with_whitespace (trim s) = false) as Hs
    by apply trimEnd_starts, trimStart_starts.
  split; [done |]. split; [apply trimEnd_ends |].
  unfold trim at 1. rewrite (trimStart_id _ Hs).
  unfold trim, trimEnd. rewrite string_rev_involutive.
  by rewrite (trimStart_id _ (trimStart_starts _)).
Qed.

(** X20: saving a title never stores a blank or padded one: when the typed
    title is empty or white space only, or equal to the loaded title,
    nothing is sent; otherwise the title the group ends up with is either
    the old one or the typed one with the white space at both ends
    removed, which is not empty and is unchanged by another trim. *)
Theorem handleSaveTitle_stores_trimmed_title env modal db :
  (trim (editedTitle modal) = ""
   ∨ editedTitle modal = g_title (ig_row (selectedGroup modal)) →
   handleSaveTitle_requests modal = [] ∧ handleSaveTitle env modal db = db)
  ∧ ∀ old, issue_groups db !! ig_id (selectedGroup modal) = Some old →
      ∃ new, issue_groups (handleSaveTitle env modal db)
               !! ig_id (selectedGroup modal) = Some new
             ∧ (g_title new = g_title old
                ∨ (g_title new = trim (editedTitle modal)
                   ∧ g_title new ≠ ""
                   ∧ starts_with_whitespace (g_title new) = false
                   ∧ ends_with_whitespace (g_title new) = false
                   ∧ trim (g_title new) = g_title new)).
Proof.
  unfold handleSaveTitle, handleSaveTitle_requests. split.
  - intros H. by rewrite decide_True.
  - intros old Hold. destruct (decide _) as [|Hsend].
    + exists old. split; [done | by left].
    + unfold run. cbn [foldl exec]. rewrite Hold.
      cbn [foldr reverse rev_append].
      destruct (negb _); cbn [fst].
      * exists old. split; [done | by left].
      * cbn [issue_groups]. rewrite lookup_insert_eq. eexists. split; [done |].
        right. cbn [update_updated_at_column set_column g_title].
        destruct (trim_normal (editedTitle modal)) as (? & ? & ?).
        repeat split; try done. intros Hempty. apply Hsend. by left.
Qed.

(** ** The migration *)

Lemma migration_case_valid status :
  check_workflow_status (migration_case status) = true.
Proof.
  unfold migration_case. repeat case_decide; vm_compute; reflexivity.
Qed.

(** X21: the migration's update leaves every row whose [workflow_status]
    was the default "backlog" with a value the later constraint admits,
    which is never "resolved" when the legacy status passed the base
    [CHECK]; rows with another [workflow_status] and all other tables are
    untouched, legacy status, priority and title are kept.  A second run,
    at any time, changes no column but [updated_at]: a row that is no
    longer "backlog" is left as it is, a row that still is (legacy status
    "open" or none of the three known ones) is matched again and only has
    [updated_at] stamped anew. *)
Theorem migration_update_backfills now db :
  messages (migration_update now db) = messages db
  ∧ message_groups (migration_update now db) = message_groups db
  ∧ (∀ gid, issue_groups (migration_update now db) !! gid
            = migration_update_row now <$> issue_groups db !! gid)
  ∧ (∀ r, g_status (migration_update_row now r) = g_status r
          ∧ g_priority (migration_update_row now r) = g_priority r
          ∧ g_title (migration_update_row now r) = g_title r
          ∧ (g_workflow_status r ≠ "backlog" → migration_update_row now r = r)
          ∧ (g_workflow_status r = "backlog" →
             check_workflow_status (g_workflow_status (migration_update_row now r)) = true
             ∧ (check_status (g_status r) = true →
                g_workflow_status (migration_update_row now r) ≠ "resolved")))
  ∧ (∀ now2 gid,
       issue_groups (migration_update now2 (migration_update now db)) !! gid
       = migration_update_row now2 <$> (migration_update_row now <$> issue_groups db !! gid))
  ∧ (∀ now2 r,
       let once := migration_update_row now r in
       let twice := migration_update_row now2 once in
       (g_workflow_status once = "backlog"
        ↔ g_workflow_status r = "backlog" ∧ migration_case (g_status r) = "backlog")
       ∧ (g_workflow_status once ≠ "backlog" → twice = once)
       ∧ (g_workflow_status once = "backlog" →
          twice = update_updated_at_column now2 once)).
Proof.
  split; [done |]. split; [done |]. split; [| split; [| split]].
  - intros gid. simpl. apply lookup_fmap.
  - intros r. unfold migration_update_row.
    destruct (decide (g_workflow_status r = "backlog")) as [Hb|Hb]; simpl.
    + repeat split; try done.
      * apply migration_case_valid.
      * intros Hst%check_status_spec. unfold migration_case.
        destruct Hst as [-> | ->]; vm_compute; discriminate.
    + repeat split; done.
  - intros now2 gid. simpl. by rewrite !lookup_fmap.
  - intros now2 r once twice. subst once twice.
    unfold migration_update_row.
    destruct (decide (g_workflow_status r = "backlog")) as [Hb|Hb]; simpl.
    + destruct (decide (migration_case (g_status r) = "backlog")) as [Hc|Hc]; simpl.
      * split; [tauto |]. split; [done |]. intros _. by rewrite Hc.
      * split; [tauto |]. split; [done |]. done.
    + rewrite decide_False by done. split; [tauto |]. split; done.
Qed.

(** ** Scores written by a merge *)

(** X22: whatever message objects a merge is started with, it inserts for
    each object a link to the target with the score the object carries
    when that is a number other than zero and not-a-number, and with 1.0
    when the object carries no score, zero or not-a-number; it inserts no
    other link, so no inserted score is zero or not-a-number. *)
Theorem merge_insert_scores modal target mid gid score :
  InsertMessageGroup mid gid score ∈ merge_requests modal target
  ↔ gid = target
    ∧ ∃ msg, msg ∈ groupMessages modal ∧ mid = msg_id msg
             ∧ PrimFloat.is_zero score = false
             ∧ PrimFloat.is_nan score = false
             ∧ (∀ v, msg_similarity_score msg = Some v →
                     PrimFloat.is_zero v = false → PrimFloat.is_nan v = false →
                     score = v)
             ∧ (∀ v, msg_similarity_score msg = Some v →
                     PrimFloat.is_zero v = true ∨ PrimFloat.is_nan v = true →
                     score = 1%float)
             ∧ (msg_similarity_score msg = None → score = 1%float).
Proof.
  unfold merge_requests. rewrite elem_of_app, list_elem_of_singleton.
  split.
  - intros [Hin | Heq]; [| discriminate Heq].
    apply list_elem_of_bind in Hin as (msg & Hin & Hmsg).
    unfold merge_move in Hin.
    rewrite !elem_of_cons, elem_of_nil in Hin.
    destruct Hin as [Hin | [Hin | []]]; [discriminate Hin |].
    injection Hin as -> -> ->.
    split; [done |]. exists msg. split; [done |]. split; [done |].
    unfold or_default. destruct (msg_similarity_score msg) as [v|].
    + destruct (PrimFloat.is_zero v) eqn:Ez; simpl.
      * repeat split; try done. intros v' [= <-]. congruence.
      * destruct (PrimFloat.is_nan v) eqn:En; simpl.
        -- repeat split; try done. intros v' [= <-]. congruence.
        -- repeat split; try done.
           ++ by intros v' [= <-].
           ++ intros v' [= <-] [? | ?]; congruence.
    + repeat split; done.
  - intros (-> & msg & Hmsg & -> & Hz & Hn & Hcarried & Hfalsy & Hnone).
    left. apply list_elem_of_bind. exists msg. split; [| done].
    unfold merge_move. rewrite !elem_of_cons. right. left.
    f_equal. unfold or_default.
    destruct (msg_similarity_score msg) as [v|]; [| by apply Hnone].
    destruct (PrimFloat.is_zero v) eqn:Ez; simpl.
    + apply (Hfalsy v); auto.
    + destruct (PrimFloat.is_nan v) eqn:En; simpl.
      * apply (Hfalsy v); auto.
      * by apply (Hcarried v).
Qed.

Lemma merge_insert_scores_witness :
  InsertMessageGroup "m1" "g2" 0.72%float ∈ merge_requests modal_scored "g2"
  ∧ InsertMessageGroup "m2" "g2" 1%float ∈ merge_requests modal_scored "g2".
Proof.
  split.
  - apply (merge_insert_scores modal_scored "g2" "m1" "g2" 0.72%float).
    split; [reflexivity |].
    exists {| msg_id := "m1"; msg_row := sample_message;
              msg_similarity_score := Some 0.72%float |}.
    split; [left |]. split; [reflexivity |].
    split; [vm_compute; reflexivity |]. split; [vm_compute; reflexivity |].
    split; [| split].
    + intros v [= <-] _ _. reflexivity.
    + intros v [= <-] [Hz | Hz]; vm_compute in Hz; discriminate Hz.
    + intros [=].
  - apply (merge_insert_scores modal_scored "g2" "m2" "g2" 1%float).
    split; [reflexivity |].
    exists {| msg_id := "m2"; msg_row := sample_message;
              msg_similarity_score := Some 0%float |}.
    split; [right; left |]. split; [reflexivity |].
    split; [vm_compute; reflexivity |]. split; [vm_compute; reflexivity |].
    split; [| split].
    + intros v [= <-] Hz _. vm_compute in Hz. discriminate Hz.
    + intros v [= <-] _. reflexivity.
    + intros [=].
Defined.
